(** * Dekker's algorithm (dekker.cpp): model and verification

    The program runs two threads, [thread_function 0] and
    [thread_function 1], over five process-wide atomics.  Every access to
    the atomics is sequentially consistent, so an execution is an
    interleaving of the threads' atomic accesses.  The model below is a
    transition system whose program points are the source lines holding
    one access each; the transition of a line is the effect of that line
    and of the access-free statements that follow it up to the next access
    ([print], [yield], [sleep_for], local arithmetic).

    [print] writes only its own static line counter and standard output;
    it is left out of the state. *)

From Stdlib Require Import String Ascii DecimalString DecimalZ.
From Stdlib Require Import ZArith List Bool Lia Arith.
Import ListNotations.
Local Open Scope Z_scope.

Set Implicit Arguments.

(** ** Machine integers *)

(** [int] is 32 bits wide; the increments of [std::atomic<int>] wrap. *)
Definition wrap_int (z : Z) : Z := (z + 2 ^ 31) mod 2 ^ 32 - 2 ^ 31.

Definition INT_MAX : Z := 2 ^ 31 - 1.

(** ** Shared variables *)

(** <<
    std::atomic<bool> flag[2] = {false, false};
    std::atomic<int> turn{0};
    std::atomic<int> shared_counter{0};
    std::atomic<int> in_critical_section{0};
    >> *)
Record shared : Type := mkShared {
  flag0 : bool;
  flag1 : bool;
  turn : Z;
  shared_counter : Z;
  in_critical_section : Z
}.

(** [flag[k].load()]: the array has the two cells 0 and 1. *)
Definition flag_load (m : shared) (k : Z) : bool :=
  if k =? 0 then flag0 m else flag1 m.

(** [flag[k].store(b)] *)
Definition flag_store (m : shared) (k : Z) (b : bool) : shared :=
  if k =? 0
  then mkShared b (flag1 m) (turn m) (shared_counter m) (in_critical_section m)
  else mkShared (flag0 m) b (turn m) (shared_counter m) (in_critical_section m).

(** [turn.store(v)] *)
Definition turn_store (m : shared) (v : Z) : shared :=
  mkShared (flag0 m) (flag1 m) v (shared_counter m) (in_critical_section m).

(** [shared_counter.store(v)] *)
Definition shared_counter_store (m : shared) (v : Z) : shared :=
  mkShared (flag0 m) (flag1 m) (turn m) v (in_critical_section m).

Definition in_critical_section_store (m : shared) (v : Z) : shared :=
  mkShared (flag0 m) (flag1 m) (turn m) (shared_counter m) v.

Definition NUM_ITERATIONS : Z := 5.

(** ** Observable accesses *)

Inductive memory_order : Type :=
| memory_order_relaxed
| memory_order_seq_cst.

Inductive location : Type :=
| Flag (k : Z)
| Turn
| SharedCounter
| InCriticalSection.

Inductive value : Type :=
| VBool (b : bool)
| VInt (z : Z).

(** One event per access to an atomic, with the order the source passes
    (an omitted order argument, and [++]/[--], mean [seq_cst]); [EvCerr] is
    the line written to [std::cerr] at line 106. *)
Inductive event : Type :=
| EvLoad (x : location) (v : value) (o : memory_order)
| EvStore (x : location) (v : value) (o : memory_order)
| EvRmw (x : location) (before after : value) (o : memory_order)
| EvCerr (count : Z).

(** The order an access is made with. *)
Definition order_of (e : event) : option memory_order :=
  match e with
  | EvLoad _ _ o | EvStore _ _ o | EvRmw _ _ _ o => Some o
  | EvCerr _ => None
  end.

(** ** Program points *)

(** [Lk] is the access on source line [k]; [L97] is the loop head of
    [thread_function], [L126] its remainder section, [LFin] the point after
    the loop. *)
Inductive label : Type :=
| L97 | L49 | L52 | L58 | L59 | L60 | L61 | L64 | L69
| L104 | L110 | L116 | L119 | L83 | L84 | L126 | LFin.

Definition label_eqb (a b : label) : bool :=
  match a, b with
  | L97, L97 | L49, L49 | L52, L52 | L58, L58 | L59, L59 | L60, L60
  | L61, L61 | L64, L64 | L69, L69 | L104, L104 | L110, L110
  | L116, L116 | L119, L119 | L83, L83 | L84, L84 | L126, L126
  | LFin, LFin => true
  | _, _ => false
  end.

(** The locals of one activation of [thread_function]. *)
Record local : Type := mkLocal {
  pc : label;
  i : Z;
  contention : bool;
  cs_count : Z;
  old_val : Z
}.

Definition goto (p : label) (l : local) : local :=
  mkLocal p (i l) (contention l) (cs_count l) (old_val l).

Definition set_contention (c : bool) (l : local) : local :=
  mkLocal (pc l) (i l) c (cs_count l) (old_val l).

Definition set_cs_count (c : Z) (l : local) : local :=
  mkLocal (pc l) (i l) (contention l) c (old_val l).

Definition set_old_val (v : Z) (l : local) : local :=
  mkLocal (pc l) (i l) (contention l) (cs_count l) v.

Definition set_i (v : Z) (l : local) : local :=
  mkLocal (pc l) v (contention l) (cs_count l) (old_val l).

(** ** The entry and exit protocols *)

(** [dekker_lock(id, other)], lines 47-77.  It returns to line 104. *)
Definition dekker_lock (id other : Z) (m : shared) (l : local)
  : shared * local * list event :=
  match pc l with
  | L49 =>
      (flag_store m id true, goto L52 l,
       [EvStore (Flag id) (VBool true) memory_order_seq_cst])
  | L52 =>
      let c := flag_load m other in
      (m, set_contention c (goto L58 l),
       [EvLoad (Flag other) (VBool c) memory_order_seq_cst])
  | L58 =>
      let c := flag_load m other in
      (m, goto (if c then L59 else L104) l,
       [EvLoad (Flag other) (VBool c) memory_order_seq_cst])
  | L59 =>
      let t := turn m in
      (m, goto (if negb (t =? id) then L60 else L58) l,
       [EvLoad Turn (VInt t) memory_order_seq_cst])
  | L60 =>
      (m, goto L61 l, [EvLoad Turn (VInt (turn m)) memory_order_seq_cst])
  | L61 =>
      (flag_store m id false, goto L64 l,
       [EvStore (Flag id) (VBool false) memory_order_seq_cst])
  | L64 =>
      let t := turn m in
      (m, goto (if negb (t =? id) then L64 else L69) l,
       [EvLoad Turn (VInt t) memory_order_seq_cst])
  | L69 =>
      (flag_store m id true, goto L58 l,
       [EvStore (Flag id) (VBool true) memory_order_seq_cst])
  | _ => (m, l, [])
  end.

(** [dekker_unlock(id, other)], lines 79-87.  It returns to line 126. *)
Definition dekker_unlock (id other : Z) (m : shared) (l : local)
  : shared * local * list event :=
  match pc l with
  | L83 =>
      (turn_store m other, goto L84 l,
       [EvStore Turn (VInt other) memory_order_seq_cst])
  | L84 =>
      (flag_store m id false, goto L126 l,
       [EvStore (Flag id) (VBool false) memory_order_seq_cst])
  | _ => (m, l, [])
  end.

(** ** The contender loop *)

(** [thread_function(id)], lines 92-131, for a loop bound [n]
    ([NUM_ITERATIONS] in the program).  The additions [old_val + 1] and
    [i++] on plain [int] are written with [wrap_int] as well; they stay in
    range in every run whose bound has [2 * n <= INT_MAX] (invariant
    [counting] below). *)
Definition thread_function (n id : Z) (m : shared) (l : local)
  : shared * local * list event :=
  let other := 1 - id in
  match pc l with
  | L97 => (m, goto (if i l <? n then L49 else LFin) l, [])
  | L49 | L52 | L58 | L59 | L60 | L61 | L64 | L69 => dekker_lock id other m l
  | L104 =>
      let c := wrap_int (in_critical_section m + 1) in
      (in_critical_section_store m c, set_cs_count c (goto L110 l),
       EvRmw InCriticalSection (VInt (in_critical_section m)) (VInt c)
         memory_order_seq_cst
       :: (if 1 <? c then [EvCerr c] else []))
  | L110 =>
      let v := shared_counter m in
      (m, set_old_val v (goto L116 l),
       [EvLoad SharedCounter (VInt v) memory_order_seq_cst])
  | L116 =>
      let new_val := wrap_int (old_val l + 1) in
      (shared_counter_store m new_val, goto L119 l,
       [EvStore SharedCounter (VInt new_val) memory_order_seq_cst])
  | L119 =>
      let c := wrap_int (in_critical_section m - 1) in
      (in_critical_section_store m c, goto L83 l,
       [EvRmw InCriticalSection (VInt (in_critical_section m)) (VInt c)
          memory_order_seq_cst])
  | L83 | L84 => dekker_unlock id other m l
  | L126 => (m, set_i (wrap_int (i l + 1)) (goto L97 l), [])
  | LFin => (m, l, [])
  end.

(** ** The two-thread system started by [main] *)

Inductive tid : Type := T0 | T1.

(** The argument [main] passes to each thread. *)
Definition id_of (t : tid) : Z :=
  match t with T0 => 0 | T1 => 1 end.

Definition peer (t : tid) : tid :=
  match t with T0 => T1 | T1 => T0 end.

Record state : Type := mkState {
  mem : shared;
  th0 : local;
  th1 : local
}.

Definition thread (t : tid) (s : state) : local :=
  match t with T0 => th0 s | T1 => th1 s end.

Definition set_thread (t : tid) (l : local) (m : shared) (s : state) : state :=
  match t with
  | T0 => mkState m l (th1 s)
  | T1 => mkState m (th0 s) l
  end.

(** Thread [t] performs its next access. *)
Definition step (n : Z) (t : tid) (s : state) : state :=
  let '(m, l, _) := thread_function n (id_of t) (mem s) (thread t s) in
  set_thread t l m s.

Definition step_events (n : Z) (t : tid) (s : state) : list event :=
  let '(_, _, es) := thread_function n (id_of t) (mem s) (thread t s) in es.

Definition init_local : local := mkLocal L97 0 false 0 0.

Definition init : state :=
  mkState (mkShared false false 0 0 0) init_local init_local.

(** An interleaving is the list of threads in the order they move. *)
Fixpoint run (n : Z) (sched : list tid) (s : state) : state :=
  match sched with
  | [] => s
  | t :: rest => run n rest (step n t s)
  end.

(** The accesses of a run, each with the thread that performs it. *)
Fixpoint trace (n : Z) (sched : list tid) (s : state) : list (tid * event) :=
  match sched with
  | [] => []
  | t :: rest =>
      map (pair t) (step_events n t s) ++ trace n rest (step n t s)
  end.

Inductive reachable (n : Z) : state -> Prop :=
| reachable_init : reachable n init
| reachable_step : forall s t, reachable n s -> reachable n (step n t s).

(** Both threads are past their loops: the joins of [main] return. *)
Definition finished (s : state) : bool :=
  label_eqb (pc (th0 s)) LFin && label_eqb (pc (th1 s)) LFin.

(** The verdict [main] prints (lines 168-172) and its return value. *)
Inductive verdict : Type := Verified | RaceDetected.

Definition main_verdict (n : Z) (s : state) : verdict :=
  if shared_counter (mem s) =? n * 2 then Verified else RaceDetected.

Definition main_return : Z := 0.

(** ** Regions of the program *)

(** Points at which the thread's own flag is up: after a raise (lines 49,
    69) and before the next lowering (lines 61, 84). *)
Definition raised (p : label) : bool :=
  match p with
  | L52 | L58 | L59 | L60 | L61
  | L104 | L110 | L116 | L119 | L83 | L84 => true
  | _ => false
  end.

(** Points between the return of [dekker_lock] and the store of line 84
    that lowers the flag: the thread holds the critical section. *)
Definition holds (p : label) : bool :=
  match p with
  | L104 | L110 | L116 | L119 | L83 | L84 => true
  | _ => false
  end.

(** Points between [++in_critical_section] and [--in_critical_section]. *)
Definition counted (p : label) : bool :=
  match p with
  | L110 | L116 | L119 => true
  | _ => false
  end.

(** Points inside a call of [dekker_lock]. *)
Definition in_lock (p : label) : bool :=
  match p with
  | L49 | L52 | L58 | L59 | L60 | L61 | L64 | L69 => true
  | _ => false
  end.

(** Points of the loop body (every point but the loop head and the end). *)
Definition in_body (p : label) : bool :=
  match p with
  | L97 | LFin => false
  | _ => true
  end.

(** Points of the current iteration at which its increment of
    [shared_counter] is already stored. *)
Definition stored (p : label) : bool :=
  match p with
  | L119 | L83 | L84 | L126 => true
  | _ => false
  end.

Definition b2z (b : bool) : Z := if b then 1 else 0.

Arguments b2z b : simpl nomatch.

(** ** Invariants of the reachable states *)

Record safe (s : state) : Prop := mkSafe {
  safe_flag0 : flag0 (mem s) = raised (pc (th0 s));
  safe_flag1 : flag1 (mem s) = raised (pc (th1 s));
  safe_mutex : holds (pc (th0 s)) && holds (pc (th1 s)) = false;
  safe_count : in_critical_section (mem s)
               = b2z (counted (pc (th0 s))) + b2z (counted (pc (th1 s)));
  safe_turn : turn (mem s) = 0 \/ turn (mem s) = 1;
  safe_84 : forall t, pc (thread t s) = L84 -> turn (mem s) = 1 - id_of t;
  safe_69 : forall t, pc (thread t s) = L69 -> turn (mem s) = id_of t;
  safe_cs : forall t, cs_count (thread t s) <= 1
}.

(** Completed increments of one thread. *)
Definition increments (l : local) : Z := i l + b2z (stored (pc l)).

Record counting (n : Z) (s : state) : Prop := mkCounting {
  cnt_range : forall t, 0 <= i (thread t s) <= n;
  cnt_body : forall t, in_body (pc (thread t s)) = true -> i (thread t s) < n;
  cnt_fin : forall t, pc (thread t s) = LFin -> i (thread t s) = n;
  cnt_total : shared_counter (mem s)
              = increments (th0 s) + increments (th1 s);
  cnt_old : forall t, pc (thread t s) = L116 ->
                      old_val (thread t s) = shared_counter (mem s)
}.

(** ** Runs seen by one thread *)

Definition tid_eqb (a b : tid) : bool :=
  match a, b with
  | T0, T0 | T1, T1 => true
  | _, _ => false
  end.

(** The accesses of thread [t] in a trace, in program order. *)
Definition events_of (t : tid) (tr : list (tid * event)) : list event :=
  map snd (filter (fun x => tid_eqb (fst x) t) tr).

(** [dekker_lock] returns: the load of line 58 finds the peer's flag down. *)
Definition enters (n : Z) (t : tid) (s : state) : bool :=
  label_eqb (pc (thread t s)) L58
  && label_eqb (pc (thread t (step n t s))) L104.

(** Number of times thread [t] acquires the critical section in a run. *)
Fixpoint acquisitions (n : Z) (t : tid) (sched : list tid) (s : state) : nat :=
  match sched with
  | [] => O
  | u :: rest =>
      ((if tid_eqb u t && enters n t s then 1 else 0)
       + acquisitions n t rest (step n u s))%nat
  end.

(** Thread [t] is at a point of [where_] in every state of a run. *)
Fixpoint stays (n : Z) (where_ : label -> bool) (t : tid)
  (sched : list tid) (s : state) : bool :=
  where_ (pc (thread t s))
  && match sched with
     | [] => true
     | u :: rest => stays n where_ t rest (step n u s)
     end.

(** Inside [dekker_lock] with the flag up and no decision to back off. *)
Definition contending (p : label) : bool :=
  match p with
  | L52 | L58 | L59 => true
  | _ => false
  end.

(** Inside [dekker_lock] with the flag down after backing off. *)
Definition backed_off (p : label) : bool :=
  match p with
  | L64 | L69 => true
  | _ => false
  end.

(** The reading of "no starvation" as bounded overtaking: in no run does a
    thread acquire twice while its peer stays inside [dekker_lock]. *)
Definition no_overtaking (n : Z) : Prop :=
  forall (t : tid) (before sched : list tid),
    let s := run n before init in
    stays n in_lock (peer t) sched s = true ->
    (acquisitions n t sched s < 2)%nat.

(** A run in which thread 0 acquires twice while thread 1 is inside
    [dekker_lock]: the prefix brings thread 1 to the spin of line 64 and
    thread 0 to the loop condition of line 58. *)
Definition overtaking_prefix : list tid :=
  [T1; T1; T0; T0; T0; T1; T1; T1; T1; T1].

Definition overtaking_schedule : list tid :=
  [T1; T0; T0; T0; T0; T0; T1; T0; T0; T0; T0; T0; T0; T0].

(** One thread after the other, each for its whole loop of five
    iterations. *)
Definition sequential : list tid := repeat T0 56 ++ repeat T1 56.

(** Loads of [turn] that return the values [w]. *)
Definition turn_loads (w : list Z) : list event :=
  map (fun v => EvLoad Turn (VInt v) memory_order_seq_cst) w.

(** The accesses that follow the decision to back off, up to and including
    the next evaluation of the loop condition of line 58: lower the flag,
    read [turn] until it is [id] ([w] holds the values read before), raise
    the flag, read the peer's flag. *)
Definition back_off_accesses (id : Z) (w : list Z) (c : bool) : list event :=
  EvStore (Flag id) (VBool false) memory_order_seq_cst
  :: turn_loads w
  ++ [EvLoad Turn (VInt id) memory_order_seq_cst;
      EvStore (Flag id) (VBool true) memory_order_seq_cst;
      EvLoad (Flag (1 - id)) (VBool c) memory_order_seq_cst].

(** The program point of thread [t] and its own flag in memory after
    each of its steps in a run. *)
Fixpoint path (n : Z) (t : tid) (sched : list tid) (s : state)
  : list (label * bool) :=
  match sched with
  | [] => []
  | u :: rest =>
      (if tid_eqb u t
       then [(pc (thread t (step n u s)),
              flag_load (mem (step n u s)) (id_of t))]
       else [])
      ++ path n t rest (step n u s)
  end.

(** Path of a thread that spins at line 64 with its flag down: it stays
    there, then goes to line 69 with the flag still down, then to the loop
    condition of line 58 with the flag up. *)
Definition wait_path (p : list (label * bool)) : Prop :=
  exists k,
    p = repeat (L64, false) k
    \/ p = repeat (L64, false) k ++ [(L69, false)]
    \/ exists rest,
         p = repeat (L64, false) k ++ (L69, false) :: (L58, true) :: rest.

(** Path of a thread that backs off, as far as it has got: lines 60 and 61
    with its flag as it was ([f]), line 64 with the flag down, and then a
    [wait_path]. *)
Definition back_off_path (f : bool) (p : list (label * bool)) : Prop :=
  p = [(L60, f)]
  \/ p = [(L60, f); (L61, f)]
  \/ exists q, p = (L60, f) :: (L61, f) :: (L64, false) :: q /\ wait_path q.

(** ** Infinite schedules *)

(** The state after [k] steps of the schedule [sigma]. *)
Fixpoint run_to (n : Z) (sigma : nat -> tid) (k : nat) : state :=
  match k with
  | O => init
  | S k' => step n (sigma k') (run_to n sigma k')
  end.

(** Every thread is scheduled again after every instant. *)
Definition fair (sigma : nat -> tid) : Prop :=
  forall (t : tid) (k : nat), exists k', (k <= k')%nat /\ sigma k' = t.

Definition alternate (k : nat) : tid := if Nat.even k then T0 else T1.

(** ** Progress measure *)

(** A thread whose next step changes nothing but its position in a spin
    loop: past the loop, spinning on [turn] at line 64, or spinning on the
    peer's flag at lines 58-59 while it has the turn. *)
Definition blocked (t : tid) (s : state) : bool :=
  match pc (thread t s) with
  | LFin => true
  | L64 => negb (turn (mem s) =? id_of t)
  | L58 | L59 =>
      (turn (mem s) =? id_of t) && flag_load (mem s) (id_of (peer t))
  | _ => false
  end.

Definition helpful (s : state) : tid :=
  if blocked T0 s then T1 else T0.

(** Distance of a point to the end of the iteration; the points of the
    loop of line 58 count less once the thread has the turn, since it
    cannot back off any more. *)
Definition distance (p : label) (mine : bool) : Z :=
  match p with
  | LFin => 0
  | L126 => 1
  | L84 => 2
  | L83 => 3
  | L119 => 4
  | L116 => 5
  | L110 => 6
  | L104 => 7
  | L58 => if mine then 8 else 14
  | L59 => if mine then 8 else 13
  | L69 => 9
  | L64 => 10
  | L61 => 11
  | L60 => 12
  | L52 => 15
  | L49 => 16
  | L97 => 17
  end.

(** Position inside the spin on the peer's flag. *)
Definition spin (p : label) (mine peer_flag : bool) : Z :=
  match p with
  | L58 => if mine then (if peer_flag then 2 else 0) else 0
  | L59 => if mine then (if peer_flag then 2 else 1) else 0
  | _ => 0
  end.

Definition weight (n : Z) (t : tid) (s : state) : Z :=
  let l := thread t s in
  let mine := turn (mem s) =? id_of t in
  5 * (18 * (n - i l) + distance (pc l) mine)
  + spin (pc l) mine (flag_load (mem s) (id_of (peer t))).

Definition measure (n : Z) (s : state) : Z :=
  weight n T0 s + weight n T1 s.

(** Points at which a thread has seen the peer's flag up and may find, or
    has found, that the turn is the peer's. *)
Definition deferring (p : label) : bool :=
  match p with
  | L59 | L60 | L61 | L64 => true
  | _ => false
  end.

(** Points of an iteration that has raised its flag and not yet handed
    over the turn. *)
Definition serving (p : label) : bool :=
  match p with
  | L52 | L58 | L59 | L60 | L61 | L64 | L69
  | L104 | L110 | L116 | L119 | L83 => true
  | _ => false
  end.

(** A thread that defers to its peer's turn has a peer that will release. *)
Definition served (s : state) : Prop :=
  forall t, deferring (pc (thread t s)) = true ->
            turn (mem s) = id_of (peer t) ->
            serving (pc (thread (peer t) s)) = true.

(** ** Further notions used below *)

(** The atomic an access touches. *)
Definition location_of (e : event) : option location :=
  match e with
  | EvLoad x _ _ | EvStore x _ _ | EvRmw x _ _ _ => Some x
  | EvCerr _ => None
  end.

(** Entries into the critical section one thread has made so far: one per
    completed iteration, and one if the current iteration is past the
    return of [dekker_lock]. *)
Definition entered_count (l : local) : Z :=
  i l + b2z (holds (pc l) || label_eqb (pc l) L126).

(** Points of [dekker_lock] from which a thread that has the turn goes on
    to line 104 without passing the back-off of lines 60-64. *)
Definition before_entry (p : label) : bool :=
  match p with
  | L52 | L58 | L59 | L69 => true
  | _ => false
  end.

(** ** Line numbers of the trace output *)







(* ================================================================== *)
(** * Proofs *)

Lemma wrap_int_id z : - 2 ^ 31 <= z < 2 ^ 31 -> wrap_int z = z.
Proof.
  intros H. unfold wrap_int. rewrite Z.mod_small; lia.
Qed.

Local Arguments wrap_int z : simpl never.

Lemma safe_init : safe init.
Proof.
  constructor; simpl; auto; try (intros []; simpl; congruence || lia).
Qed.

Ltac break_state s :=
  destruct s as [[f0 f1 tu sc ics] [p0 i0 c0 k0 o0] [p1 i1 c1 k1 o1]].

Ltac split_ifs :=
  repeat match goal with
  | |- context [if ?b then _ else _] => destruct b eqn:?
  end.

Ltac by_thread :=
  intros []; simpl; intros; try discriminate; subst; try discriminate;
  auto; try lia.

Lemma b2z_range b : 0 <= b2z b <= 1.
Proof. destruct b; simpl; lia. Qed.

Lemma holds_raised p : holds p = true -> raised p = true.
Proof. destruct p; simpl; congruence. Qed.

Lemma counted_holds p : counted p = true -> holds p = true.
Proof. destruct p; simpl; congruence. Qed.

Lemma safe_step n s t : safe s -> safe (step n t s).
Proof.
  break_state s. intros [F0 F1 M C T E84 E69 CS]. simpl in *.
  pose proof (E84 T0) as A0. pose proof (E84 T1) as A1.
  pose proof (E69 T0) as B0. pose proof (E69 T1) as B1.
  pose proof (CS T0) as C0. pose proof (CS T1) as C1.
  clear E84 E69 CS. simpl in *.
  destruct t; [destruct p0 | destruct p1]; simpl in *;
    unfold step; simpl; split_ifs;
    try (specialize (A0 eq_refl)); try (specialize (A1 eq_refl));
    try (specialize (B0 eq_refl)); try (specialize (B1 eq_refl));
    (constructor; simpl;
     [ try assumption; try reflexivity
     | try assumption; try reflexivity
     | try assumption; try reflexivity
     | try lia
     | try assumption; try lia
     | by_thread
     | by_thread
     | by_thread ]).
  all: simpl in *; subst;
    first [ destruct p1 | destruct p0 ]; simpl in *;
    try discriminate; try reflexivity;
    rewrite ?wrap_int_id by lia; lia.
Qed.

Lemma reachable_safe n s : reachable n s -> safe s.
Proof.
  induction 1; [apply safe_init | now apply safe_step].
Qed.


Lemma counting_init n : 0 <= n -> counting n init.
Proof.
  intros Hn. constructor; simpl; try by_thread. reflexivity.
Qed.

Lemma counting_step n s t :
  0 <= n -> 2 * n <= INT_MAX ->
  safe s -> counting n s -> counting n (step n t s).
Proof.
  intros Hn Hmax Hs Hc.
  assert (Hb : n < 2 ^ 30) by (unfold INT_MAX in Hmax; lia). clear Hmax.
  revert Hs Hc.
  break_state s. intros [_ _ M _ _ _ _ _] [R B F Tot O]. simpl in *.
  pose proof (R T0) as R0. pose proof (R T1) as R1.
  pose proof (B T0) as B0. pose proof (B T1) as B1.
  pose proof (F T0) as F0. pose proof (F T1) as F1.
  pose proof (O T0) as O0. pose proof (O T1) as O1.
  clear R B F O. unfold increments in *. simpl in *.
  pose proof (b2z_range (stored p0)). pose proof (b2z_range (stored p1)).
  destruct t; [destruct p0 | destruct p1]; simpl in *;
    unfold step; simpl; split_ifs;
    try (specialize (O0 eq_refl)); try (specialize (O1 eq_refl));
    try (specialize (B0 eq_refl)); try (specialize (B1 eq_refl));
    (constructor; unfold increments; simpl;
     rewrite ?wrap_int_id by lia;
     [ intros []; simpl; lia
     | intros []; simpl; intros; try discriminate; auto; lia
     | intros []; simpl; intros; try discriminate; auto; lia
     | try lia
     | intros []; simpl; intros; try discriminate; subst; try discriminate; auto; try lia ]).
Qed.

Lemma reachable_counting n s :
  0 <= n -> 2 * n <= INT_MAX -> reachable n s -> counting n s.
Proof.
  intros Hn Hmax. induction 1.
  - now apply counting_init.
  - apply counting_step; auto. now apply reachable_safe with n.
Qed.

(** ** Runs and reachable states *)

Lemma reachable_run n sched s : reachable n s -> reachable n (run n sched s).
Proof.
  revert s. induction sched as [|t rest IH]; simpl; intros s H; auto.
  apply IH. now constructor.
Qed.

Lemma run_reachable n sched : reachable n (run n sched init).
Proof. apply reachable_run. constructor. Qed.

Lemma reachable_is_run n s : reachable n s -> exists sched, s = run n sched init.
Proof.
  induction 1 as [|s t _ [sched ->]].
  - now exists [].
  - exists (sched ++ [t]). revert t. generalize init.
    induction sched as [|u rest IH]; simpl; intros; auto.
Qed.

Lemma run_app n a b s : run n (a ++ b) s = run n b (run n a s).
Proof. revert s. induction a; simpl; auto. Qed.

Lemma trace_app n a b s :
  trace n (a ++ b) s = trace n a s ++ trace n b (run n a s).
Proof.
  revert s. induction a as [|t a IH]; simpl; intros s; auto.
  now rewrite IH, app_assoc.
Qed.

(** ** Mutual exclusion *)

Lemma no_cerr n s t c : safe s -> ~ In (EvCerr c) (step_events n t s).
Proof.
  break_state s. intros [_ _ M C _ _ _ _]. simpl in *.
  destruct t; [destruct p0 | destruct p1]; unfold step_events; simpl;
    try tauto; try (intros [H|[]]; discriminate).
  all: subst ics; first [destruct p1 | destruct p0]; simpl in *;
    try discriminate; rewrite wrap_int_id by lia; simpl;
    intros [H|[]]; discriminate.
Qed.

Lemma in_trace n sched s t e :
  In (t, e) (trace n sched s) ->
  exists a b, sched = a ++ t :: b /\ In e (step_events n t (run n a s)).
Proof.
  revert s. induction sched as [|u rest IH]; simpl; intros s H; [tauto|].
  apply in_app_or in H as [H|H].
  - apply in_map_iff in H as (e' & [= <- <-] & H).
    now exists [], rest.
  - apply IH in H as (a & b & -> & H). now exists (u :: a), b.
Qed.

(** C1. Mutual exclusion: in every state of every interleaving of the two
    contender loops, for any loop bound, the two threads are not both
    between the return of [dekker_lock] and the end of [dekker_unlock],
    [in_critical_section] is 0 or 1, no thread has read a count above 1,
    and the violation message of line 106 is never written. *)
Theorem mutual_exclusion (n : Z) (sched : list tid) :
  let s := run n sched init in
  holds (pc (th0 s)) && holds (pc (th1 s)) = false
  /\ 0 <= in_critical_section (mem s) <= 1
  /\ (forall t, cs_count (thread t s) <= 1)
  /\ (forall t c, ~ In (t, EvCerr c) (trace n sched init)).
Proof.
  intros s. pose proof (reachable_safe (run_reachable n sched)) as S.
  fold s in S. destruct S as [_ _ M C _ _ _ CS]. repeat split; auto.
  - rewrite C.
    pose proof (b2z_range (counted (pc (th0 s)))).
    pose proof (b2z_range (counted (pc (th1 s)))). lia.
  - rewrite C.
    destruct (counted (pc (th0 s))) eqn:E0, (counted (pc (th1 s))) eqn:E1;
      simpl; try lia.
    apply counted_holds in E0, E1. rewrite E0, E1 in M. discriminate.
  - intros t c H. apply in_trace in H as (a & b & _ & H).
    revert H. apply no_cerr. apply reachable_safe with n, run_reachable.
Qed.

(** ** Frame properties of a step *)

Lemma id_of_peer t : id_of (peer t) = 1 - id_of t.
Proof. now destruct t. Qed.

Lemma step_thread_other n t s : thread (peer t) (step n t s) = thread (peer t) s.
Proof.
  unfold step. destruct (thread_function n (id_of t) (mem s) (thread t s))
    as [[m l] es]. now destruct t.
Qed.

Lemma step_flag_other n t s :
  flag_load (mem (step n t s)) (id_of (peer t))
  = flag_load (mem s) (id_of (peer t)).
Proof.
  break_state s.
  destruct t; [destruct p0 | destruct p1]; unfold step; simpl; reflexivity.
Qed.

Lemma step_turn n t s :
  turn (mem (step n t s)) <> turn (mem s) -> pc (thread t s) = L83.
Proof.
  break_state s.
  destruct t; [destruct p0 | destruct p1]; unfold step; simpl; congruence.
Qed.

Lemma store_turn_event n t s v o :
  In (EvStore Turn v o) (step_events n t s) ->
  pc (thread t s) = L83 /\ v = VInt (1 - id_of t).
Proof.
  break_state s.
  destruct t; [destruct p0 | destruct p1]; unfold step_events; simpl;
    try tauto; split_ifs; simpl; intros H;
    repeat (destruct H as [H|H]; try discriminate; try tauto);
    injection H as <- _; auto.
Qed.

(** ** Turn *)

Lemma thread_kept_by_peer n t k : forall s,
  thread t (run n (repeat (peer t) k) s) = thread t s.
Proof.
  induction k as [|k IH]; intros s; simpl; [reflexivity|].
  rewrite IH. unfold step.
  destruct (thread_function n (id_of (peer t)) (mem s) (thread (peer t) s))
    as [[m l] es]. now destruct t.
Qed.

Lemma unlock_first_store n t s :
  pc (thread t s) = L83 ->
  pc (thread t (step n t s)) = L84
  /\ turn (mem (step n t s)) = 1 - id_of t
  /\ step_events n t s
     = [EvStore Turn (VInt (1 - id_of t)) memory_order_seq_cst].
Proof.
  break_state s. destruct t; simpl; intros ->; unfold step, step_events;
    cbn; auto.
Qed.

Lemma unlock_second_store n t s :
  safe s -> pc (thread t s) = L84 ->
  pc (thread t (step n t s)) = L126
  /\ turn (mem (step n t s)) = 1 - id_of t
  /\ flag_load (mem (step n t s)) (id_of t) = false.
Proof.
  intros S H. pose proof (safe_84 S t H) as E. revert H E. clear.
  break_state s.
  destruct t; simpl; intros -> E; unfold step; cbn; auto.
Qed.

(** C4. Turn validity: in every state of every interleaving [turn] is 0 or
    1; a step changes [turn], or stores to it, only at line 83 of
    [dekker_unlock], and stores the peer's identity; the state that
    follows the last store of [dekker_unlock] by identity [i] has
    [turn = 1 - i].  A thread at line 83 does store [1 - i] to [turn] and
    goes on to line 84; and whatever number of steps the peer takes
    between the two stores, the call returns (line 126) with
    [turn = 1 - i] and the caller's flag down. *)
Theorem turn_validity (n : Z) (sched : list tid) :
  let s := run n sched init in
  (turn (mem s) = 0 \/ turn (mem s) = 1)
  /\ (forall t, turn (mem (step n t s)) <> turn (mem s) ->
                pc (thread t s) = L83)
  /\ (forall t v o, In (EvStore Turn v o) (step_events n t s) ->
                    pc (thread t s) = L83 /\ v = VInt (1 - id_of t))
  /\ (forall t, pc (thread t s) = L84 ->
                pc (thread t (step n t s)) = L126
                /\ turn (mem (step n t s)) = 1 - id_of t)
  /\ (forall t, pc (thread t s) = L83 ->
                pc (thread t (step n t s)) = L84
                /\ turn (mem (step n t s)) = 1 - id_of t
                /\ step_events n t s
                   = [EvStore Turn (VInt (1 - id_of t)) memory_order_seq_cst])
  /\ (forall t k, pc (thread t s) = L83 ->
        let s1 := run n (repeat (peer t) k) (step n t s) in
        pc (thread t s1) = L84
        /\ pc (thread t (step n t s1)) = L126
        /\ turn (mem (step n t s1)) = 1 - id_of t
        /\ flag_load (mem (step n t s1)) (id_of t) = false).
Proof.
  intros s. pose proof (run_reachable n sched) as R. fold s in R.
  pose proof (reachable_safe R) as S.
  split; [apply S|]. split; [intros t; apply step_turn|].
  split; [intros t v o; apply store_turn_event|].
  split; [|split].
  - intros t H. destruct (unlock_second_store n t S H) as (A & B & _). auto.
  - intros t. apply unlock_first_store.
  - intros t k H s1.
    assert (P : pc (thread t s1) = L84).
    { unfold s1. rewrite thread_kept_by_peer.
      now destruct (unlock_first_store n t s H). }
    split; [exact P|]. apply unlock_second_store; [|exact P].
    apply reachable_safe with n. unfold s1.
    apply reachable_run. now constructor.
Qed.

(** Thread 0 releases while thread 1 takes three steps between the two
    stores of [dekker_unlock]. *)
Lemma turn_validity_witness :
  let s := run NUM_ITERATIONS (repeat T0 8) init in
  let s1 := run NUM_ITERATIONS (repeat (peer T0) 3) (step NUM_ITERATIONS T0 s) in
  pc (thread T0 s) = L83
  /\ pc (thread T0 (step NUM_ITERATIONS T0 s1)) = L126
  /\ turn (mem (step NUM_ITERATIONS T0 s1)) = 1 - id_of T0.
Proof.
  intros s s1. split; [reflexivity|].
  destruct (turn_validity NUM_ITERATIONS (repeat T0 8))
    as (_ & _ & _ & _ & _ & H).
  destruct (H T0 3%nat eq_refl) as (_ & A & B & _).
  split; [exact A | exact B].
Defined.

(** ** Payload *)

Lemma finished_both s :
  finished s = true -> pc (th0 s) = LFin /\ pc (th1 s) = LFin.
Proof.
  unfold finished. intros H. apply andb_true_iff in H as [H0 H1].
  split; [destruct (pc (th0 s)) | destruct (pc (th1 s))];
    simpl in *; congruence.
Qed.

(** C5. Payload: with a loop bound [n] whose double fits an [int], every
    run that ends with both threads past their loops leaves
    [shared_counter = 2 * n], and [main] prints the success verdict exactly
    when the counter it reads equals [n * 2]. *)
Theorem payload_correct (n : Z) (sched : list tid) :
  0 <= n -> 2 * n <= INT_MAX ->
  finished (run n sched init) = true ->
  shared_counter (mem (run n sched init)) = 2 * n
  /\ main_verdict n (run n sched init) = Verified
  /\ (forall s, main_verdict n s = Verified <-> shared_counter (mem s) = n * 2).
Proof.
  intros Hn Hmax Hf.
  pose proof (reachable_counting Hn Hmax (run_reachable n sched)) as C.
  apply finished_both in Hf as [H0 H1].
  assert (E : shared_counter (mem (run n sched init)) = 2 * n).
  { pose proof (cnt_fin C T0 H0) as I0. pose proof (cnt_fin C T1 H1) as I1.
    simpl in I0, I1. rewrite (cnt_total C). unfold increments.
    rewrite H0, H1, I0, I1. unfold stored, b2z. lia. }
  split; [exact E|]. split.
  - unfold main_verdict. rewrite E.
    replace (2 * n) with (n * 2) by lia. now rewrite Z.eqb_refl.
  - intros s. unfold main_verdict.
    destruct (Z.eqb_spec (shared_counter (mem s)) (n * 2)); split;
      congruence.
Qed.

Lemma payload_correct_witness :
  finished (run NUM_ITERATIONS sequential init) = true
  /\ shared_counter (mem (run NUM_ITERATIONS sequential init)) = 10
  /\ main_verdict NUM_ITERATIONS (run NUM_ITERATIONS sequential init)
     = Verified.
Proof.
  split; [reflexivity|].
  destruct (@payload_correct NUM_ITERATIONS sequential) as (H & V & _).
  - unfold NUM_ITERATIONS. lia.
  - unfold NUM_ITERATIONS, INT_MAX. lia.
  - reflexivity.
  - split; [exact H | exact V].
Defined.

(** ** The holder's flag *)

Lemma flag_raised n s t :
  reachable n s -> flag_load (mem s) (id_of t) = raised (pc (thread t s)).
Proof.
  intros R. apply reachable_safe in R. destruct t; simpl; apply R.
Qed.

Lemma flag_lowered_by n s t u :
  flag_load (mem s) (id_of t) = true ->
  flag_load (mem (step n u s)) (id_of t) = false ->
  u = t /\ (pc (thread t s) = L61 \/ pc (thread t s) = L84).
Proof.
  break_state s.
  destruct t, u; [destruct p0 | destruct p1 | destruct p0 | destruct p1];
    unfold step; simpl; split_ifs; simpl;
    intros; cbn in *; subst; try discriminate; try congruence; auto.
Qed.

(** C10. Holder's flag: in every state of every interleaving, a thread that
    is between the return of [dekker_lock] and the store of line 84 has its
    own flag up (so [dekker_lock] returns, at line 104, with the flag up);
    and whenever a step lowers that flag it is a step of the thread itself,
    at line 84 of its [dekker_unlock], while at any other time the only
    lowering is its own back-off of line 61. *)
Theorem holder_flag (n : Z) (sched : list tid) (t : tid) :
  let s := run n sched init in
  holds (pc (thread t s)) = true ->
  flag_load (mem s) (id_of t) = true
  /\ (forall u, flag_load (mem (step n u s)) (id_of t) = false ->
                u = t /\ pc (thread t s) = L84)
  /\ (forall s' u, flag_load (mem s') (id_of t) = true ->
                   flag_load (mem (step n u s')) (id_of t) = false ->
                   u = t /\ (pc (thread t s') = L61 \/ pc (thread t s') = L84)).
Proof.
  intros s H.
  assert (F : flag_load (mem s) (id_of t) = true).
  { unfold s. rewrite (@flag_raised n) by apply run_reachable.
    now apply holds_raised. }
  split; [exact F|]. split.
  - intros u L. destruct (flag_lowered_by _ _ _ _ F L) as [-> [E|E]]; auto.
    rewrite E in H. discriminate.
  - intros s' u. apply flag_lowered_by.
Qed.

Lemma holder_flag_witness :
  let s := run NUM_ITERATIONS [T1; T1; T1; T1; T1] init in
  holds (pc (thread T1 s)) = true
  /\ flag_load (mem s) (id_of T1) = true.
Proof.
  split; [reflexivity|].
  apply (@holder_flag NUM_ITERATIONS [T1; T1; T1; T1; T1] T1). reflexivity.
Defined.

(** ** The exit protocol *)

(** C3. Exit protocol: a call of [dekker_unlock(id, other)] makes two
    accesses, whatever memory it finds at each: first the store
    [turn = other], which leaves the flags and both counters as they were,
    then the store [flag[id] = false], which leaves [turn], the other flag
    and both counters as they were; after that it has returned and writes
    nothing. *)
Theorem dekker_unlock_order (id other : Z) (m m' m'' : shared) (l : local) :
  pc l = L83 ->
  let '(m1, l1, e1) := dekker_unlock id other m l in
  let '(m2, l2, e2) := dekker_unlock id other m' l1 in
  let '(m3, l3, e3) := dekker_unlock id other m'' l2 in
  e1 = [EvStore Turn (VInt other) memory_order_seq_cst]
  /\ e2 = [EvStore (Flag id) (VBool false) memory_order_seq_cst]
  /\ e3 = []
  /\ m1 = turn_store m other
  /\ turn m1 = other
  /\ (flag0 m1, flag1 m1, shared_counter m1, in_critical_section m1)
     = (flag0 m, flag1 m, shared_counter m, in_critical_section m)
  /\ m2 = flag_store m' id false
  /\ flag_load m2 id = false
  /\ (forall k, (k =? 0) <> (id =? 0) -> flag_load m2 k = flag_load m' k)
  /\ (turn m2, shared_counter m2, in_critical_section m2)
     = (turn m', shared_counter m', in_critical_section m')
  /\ pc l2 = L126
  /\ (m3, l3) = (m'', l2).
Proof.
  destruct l as [p j c k o]. simpl. intros ->. unfold dekker_unlock. simpl.
  repeat split; auto.
  - unfold flag_load, flag_store. destruct (id =? 0) eqn:E; simpl; auto.
  - intros k0 H. unfold flag_load, flag_store.
    destruct (id =? 0), (k0 =? 0); simpl; congruence.
  - unfold flag_store. now destruct (id =? 0).
Qed.

Lemma dekker_unlock_order_witness :
  let m := mkShared true false 0 1 0 in
  let l := mkLocal L83 0 false 1 0 in
  pc l = L83
  /\ fst (fst (dekker_unlock 0 1 (fst (fst (dekker_unlock 0 1 m l)))
                 (snd (fst (dekker_unlock 0 1 m l)))))
     = mkShared false false 1 1 0.
Proof.
  split; [reflexivity|].
  pose proof (@dekker_unlock_order 0 1 (mkShared true false 0 1 0)
                (mkShared true false 1 1 0) (mkShared false false 1 1 0)
                (mkLocal L83 0 false 1 0) eq_refl) as H.
  simpl in H. simpl. destruct H as (_ & _ & _ & _ & _ & _ & H & _).
  exact H.
Defined.

(** ** The accesses of one thread *)

Lemma peer_peer t : peer (peer t) = t.
Proof. now destruct t. Qed.

Lemma tid_eqb_refl t : tid_eqb t t = true.
Proof. now destruct t. Qed.

Lemma tid_eqb_peer t : tid_eqb (peer t) t = false.
Proof. now destruct t. Qed.

Lemma tid_cases t u : u = t \/ u = peer t.
Proof. destruct t, u; auto. Qed.

Lemma events_of_pair t u es tr :
  events_of t (map (pair u) es ++ tr)
  = (if tid_eqb u t then es else []) ++ events_of t tr.
Proof.
  unfold events_of. rewrite filter_app, map_app. f_equal.
  induction es as [|e es IH]; simpl.
  - now destruct (tid_eqb u t).
  - destruct (tid_eqb u t); simpl in *; congruence.
Qed.

Lemma events_own n t rest s :
  events_of t (trace n (t :: rest) s)
  = step_events n t s ++ events_of t (trace n rest (step n t s)).
Proof. simpl. now rewrite events_of_pair, tid_eqb_refl. Qed.

Lemma events_peer n t rest s :
  events_of t (trace n (peer t :: rest) s)
  = events_of t (trace n rest (step n (peer t) s)).
Proof. simpl. now rewrite events_of_pair, tid_eqb_peer. Qed.

Lemma thread_after_peer n t s : thread t (step n (peer t) s) = thread t s.
Proof.
  rewrite <- (peer_peer t) at 1 3. apply step_thread_other.
Qed.

(** Induction over a run as seen by thread [t]: a step of the peer leaves
    the locals of [t] alone. *)
Ltac by_run t sched IH :=
  let u := fresh "u" in
  let rest := fresh "rest" in
  induction sched as [|u rest IH]; intros;
  [ | destruct (tid_cases t u); subst u;
      [ rewrite events_own | rewrite events_peer ] ].

Lemma peer_keeps_flag n t s :
  flag_load (mem (step n (peer t) s)) (id_of t) = flag_load (mem s) (id_of t).
Proof.
  pose proof (step_flag_other n (peer t) s) as H.
  now rewrite peer_peer in H.
Qed.

Lemma raise_at_49 n t s :
  pc (thread t s) = L49 ->
  pc (thread t (step n t s)) = L52
  /\ flag_load (mem (step n t s)) (id_of t) = true
  /\ flag_load (mem (step n t s)) (id_of (peer t))
     = flag_load (mem s) (id_of (peer t))
  /\ (turn (mem (step n t s)), shared_counter (mem (step n t s)),
      in_critical_section (mem (step n t s)))
     = (turn (mem s), shared_counter (mem s), in_critical_section (mem s))
  /\ step_events n t s
     = [EvStore (Flag (id_of t)) (VBool true) memory_order_seq_cst].
Proof.
  break_state s. destruct t; simpl; intros ->; unfold step, step_events;
    cbn; auto.
Qed.

(** Once a call of [dekker_lock] has made its first step, the flag in
    memory follows the program point of its thread. *)
Lemma flag_follows_step n t u s :
  pc (thread t s) = L49
  \/ flag_load (mem s) (id_of t) = raised (pc (thread t s)) ->
  pc (thread t (step n u s)) = L49
  \/ flag_load (mem (step n u s)) (id_of t)
     = raised (pc (thread t (step n u s))).
Proof.
  destruct (tid_cases t u) as [->| ->].
  - break_state s.
    destruct t; [destruct p0 | destruct p1]; unfold step; cbn;
      split_ifs; cbn; intros [H|H]; try discriminate; auto.
  - now rewrite thread_after_peer, peer_keeps_flag.
Qed.

Lemma flag_follows_run n t sched : forall s,
  pc (thread t s) = L49
  \/ flag_load (mem s) (id_of t) = raised (pc (thread t s)) ->
  pc (thread t (run n sched s)) = L49
  \/ flag_load (mem (run n sched s)) (id_of t)
     = raised (pc (thread t (run n sched s))).
Proof.
  induction sched as [|u rest IH]; intros s H; simpl; [exact H|].
  apply IH. now apply flag_follows_step.
Qed.

Lemma peer_flag_load_at n t s v o :
  In (EvLoad (Flag (1 - id_of t)) v o) (step_events n t s) ->
  pc (thread t s) = L52 \/ pc (thread t s) = L58.
Proof.
  break_state s.
  destruct t; [destruct p0 | destruct p1]; unfold step_events; cbn;
    split_ifs; cbn; auto; intros H;
    repeat (destruct H as [H|H]; try discriminate); destruct H.
Qed.

(** C6. Intent before check: from the entry of [dekker_lock], in every
    interleaving, the first access of the thread is the store
    [flag[id] = true]; hence every load of the peer's flag by the thread
    comes after that store in its program order.  The store is performed:
    the first step of the thread leaves [flag[id]] true in memory and
    nothing else changed; and in every state of the run in which the
    thread is at a load of the peer's flag (lines 52, 58), its own flag is
    true in memory. *)
Theorem intent_before_check (n : Z) (t : tid) (s : state) (sched : list tid) :
  pc (thread t s) = L49 ->
  let es := events_of t (trace n sched s) in
  (es = [] \/ exists rest,
     es = EvStore (Flag (id_of t)) (VBool true) memory_order_seq_cst :: rest)
  /\ (forall k v o,
        nth_error es k = Some (EvLoad (Flag (1 - id_of t)) v o) ->
        (0 < k)%nat
        /\ nth_error es 0
           = Some (EvStore (Flag (id_of t)) (VBool true) memory_order_seq_cst))
  /\ (pc (thread t (step n t s)) = L52
      /\ flag_load (mem (step n t s)) (id_of t) = true
      /\ flag_load (mem (step n t s)) (id_of (peer t))
         = flag_load (mem s) (id_of (peer t))
      /\ (turn (mem (step n t s)), shared_counter (mem (step n t s)),
          in_critical_section (mem (step n t s)))
         = (turn (mem s), shared_counter (mem s), in_critical_section (mem s))
      /\ step_events n t s
         = [EvStore (Flag (id_of t)) (VBool true) memory_order_seq_cst])
  /\ (pc (thread t (run n sched s)) = L52
      \/ pc (thread t (run n sched s)) = L58 ->
      flag_load (mem (run n sched s)) (id_of t) = true)
  /\ (forall v o,
        In (EvLoad (Flag (1 - id_of t)) v o)
           (step_events n t (run n sched s)) ->
        flag_load (mem (run n sched s)) (id_of t) = true).
Proof.
  intros H es.
  assert (A : es = [] \/ exists rest,
     es = EvStore (Flag (id_of t)) (VBool true) memory_order_seq_cst :: rest).
  { unfold es. clear es. revert s H. by_run t sched IH.
    - now left.
    - right. eexists. f_equal. 
      unfold step_events. break_state s. destruct t; simpl in *; subst;
        simpl; reflexivity.
    - apply IH. now rewrite thread_after_peer. }
  assert (B : pc (thread t (run n sched s)) = L52
              \/ pc (thread t (run n sched s)) = L58 ->
              flag_load (mem (run n sched s)) (id_of t) = true).
  { intros P.
    destruct (@flag_follows_run n t sched s (or_introl H)) as [E|E].
    - destruct P as [P|P]; congruence.
    - rewrite E. destruct P as [-> | ->]; reflexivity. }
  split; [exact A|]. split; [|split; [now apply raise_at_49|split]].
  - intros k v o Hk. destruct A as [A|[rest A]].
    + rewrite A in Hk. destruct k; discriminate.
    + rewrite A in *. destruct k; [discriminate Hk|].
      split; [lia|reflexivity].
  - exact B.
  - intros v o L. apply B. now apply peer_flag_load_at with n v o.
Qed.

(** Thread 1 interferes; thread 0 raises its flag, then reads the flag of
    thread 1. *)
Lemma intent_before_check_witness :
  let s := step NUM_ITERATIONS T0 init in
  let sched := [T1; T0; T1; T0] in
  pc (thread T0 s) = L49
  /\ nth_error (events_of T0 (trace NUM_ITERATIONS sched s)) 0
     = Some (EvStore (Flag 0) (VBool true) memory_order_seq_cst)
  /\ flag_load (mem (step NUM_ITERATIONS T0 s)) (id_of T0) = true
  /\ pc (thread T0 (run NUM_ITERATIONS sched s)) = L58
  /\ flag_load (mem (run NUM_ITERATIONS sched s)) (id_of T0) = true.
Proof.
  intros s sched. split; [reflexivity|].
  destruct (@intent_before_check NUM_ITERATIONS T0 s sched eq_refl)
    as (_ & H & (_ & F & _) & G & _).
  split; [|split; [exact F|split; [reflexivity|]]].
  - apply (H 1%nat (VBool true) memory_order_seq_cst). reflexivity.
  - apply G. right. reflexivity.
Defined.

(** ** The back-off of the entry protocol *)

Ltac own_step s t :=
  unfold step_events, step; break_state s; destruct t; simpl; intros;
  subst; simpl;
  repeat match goal with
  | H : _ <> _ |- _ => apply Z.eqb_neq in H; rewrite H
  end; simpl.

(** From the loop condition of line 58 the next access reads the peer's
    flag. *)
Lemma recheck_from_58 n t sched : forall s,
  pc (thread t s) = L58 ->
  pc (thread t (run n sched s)) = L104 ->
  exists c rest,
    events_of t (trace n sched s)
    = EvLoad (Flag (1 - id_of t)) (VBool c) memory_order_seq_cst :: rest.
Proof.
  by_run t sched IH.
  - simpl in *. congruence.
  - revert H. clear. own_step s t; eauto.
  - apply IH; [now rewrite thread_after_peer | assumption].
Qed.

Lemma reraise_from_69 n t sched : forall s,
  pc (thread t s) = L69 ->
  pc (thread t (run n sched s)) = L104 ->
  exists c rest,
    events_of t (trace n sched s)
    = EvStore (Flag (id_of t)) (VBool true) memory_order_seq_cst
      :: EvLoad (Flag (1 - id_of t)) (VBool c) memory_order_seq_cst :: rest.
Proof.
  by_run t sched IH.
  - simpl in *. congruence.
  - destruct (@recheck_from_58 n t rest (step n t s)) as (c & r & E).
    + revert H. clear. own_step s t; reflexivity.
    + assumption.
    + rewrite E. exists c, r. revert H. clear. own_step s t; reflexivity.
  - apply IH; [now rewrite thread_after_peer | assumption].
Qed.

Lemma wait_from_64 n t sched : forall s,
  pc (thread t s) = L64 ->
  pc (thread t (run n sched s)) = L104 ->
  exists w c rest,
    Forall (fun v => v <> id_of t) w
    /\ events_of t (trace n sched s)
       = turn_loads w
         ++ EvLoad Turn (VInt (id_of t)) memory_order_seq_cst
         :: EvStore (Flag (id_of t)) (VBool true) memory_order_seq_cst
         :: EvLoad (Flag (1 - id_of t)) (VBool c) memory_order_seq_cst
         :: rest.
Proof.
  by_run t sched IH.
  - simpl in *. congruence.
  - destruct (Z.eqb_spec (turn (mem s)) (id_of t)) as [E|E].
    + destruct (@reraise_from_69 n t rest (step n t s)) as (c & r & R).
      * revert H E. clear. own_step s t; reflexivity.
      * assumption.
      * rewrite R. exists [], c, r. split; [constructor|].
        revert H E. clear. own_step s t; reflexivity.
    + destruct (IH (step n t s)) as (w & c & r & F & R).
      * revert H E. clear. own_step s t; reflexivity.
      * assumption.
      * rewrite R. exists (turn (mem s) :: w), c, r.
        split; [now constructor|].
        revert H E. clear. own_step s t; reflexivity.
  - apply IH; [now rewrite thread_after_peer | assumption].
Qed.

Lemma lower_from_61 n t sched : forall s,
  pc (thread t s) = L61 ->
  pc (thread t (run n sched s)) = L104 ->
  exists w c rest,
    Forall (fun v => v <> id_of t) w
    /\ events_of t (trace n sched s)
       = back_off_accesses (id_of t) w c ++ rest.
Proof.
  by_run t sched IH.
  - simpl in *. congruence.
  - destruct (@wait_from_64 n t rest (step n t s)) as (w & c & r & F & R).
    + revert H. clear. own_step s t; reflexivity.
    + assumption.
    + rewrite R. exists w, c, r. split; [assumption|].
      unfold back_off_accesses. simpl. rewrite <- app_assoc. simpl.
      revert H. clear. own_step s t; reflexivity.
  - apply IH; [now rewrite thread_after_peer | assumption].
Qed.

Lemma report_from_60 n t sched : forall s,
  pc (thread t s) = L60 ->
  pc (thread t (run n sched s)) = L104 ->
  exists v w c rest,
    Forall (fun v => v <> id_of t) w
    /\ events_of t (trace n sched s)
       = EvLoad Turn (VInt v) memory_order_seq_cst
         :: back_off_accesses (id_of t) w c ++ rest.
Proof.
  by_run t sched IH.
  - simpl in *. congruence.
  - destruct (@lower_from_61 n t rest (step n t s)) as (w & c & r & F & R).
    + revert H. clear. own_step s t; reflexivity.
    + assumption.
    + rewrite R. exists (turn (mem s)), w, c, r. split; [assumption|].
      revert H. clear. own_step s t; reflexivity.
  - apply IH; [now rewrite thread_after_peer | assumption].
Qed.

Lemma enter_only_from_58 n t u s :
  pc (thread t (step n u s)) = L104 ->
  pc (thread t s) <> L104 ->
  u = t /\ pc (thread t s) = L58
  /\ flag_load (mem s) (1 - id_of t) = false.
Proof.
  destruct (tid_cases t u) as [->| ->].
  - break_state s.
    destruct t; [destruct p0 | destruct p1]; unfold step; cbn;
      split_ifs; cbn; intros; try discriminate; try congruence; auto.
  - rewrite thread_after_peer. congruence.
Qed.

Lemma path_own n t rest s :
  path n t (t :: rest) s
  = (pc (thread t (step n t s)), flag_load (mem (step n t s)) (id_of t))
    :: path n t rest (step n t s).
Proof. simpl. now rewrite tid_eqb_refl. Qed.

Lemma path_peer n t rest s :
  path n t (peer t :: rest) s = path n t rest (step n (peer t) s).
Proof. simpl. now rewrite tid_eqb_peer. Qed.

Ltac by_path t sched IH :=
  let u := fresh "u" in
  let rest := fresh "rest" in
  induction sched as [|u rest IH]; intros;
  [ | destruct (tid_cases t u); subst u;
      [ rewrite path_own | rewrite path_peer ] ].

Lemma path_from_69 n t sched : forall s,
  pc (thread t s) = L69 ->
  path n t sched s = [] \/ exists rest, path n t sched s = (L58, true) :: rest.
Proof.
  by_path t sched IH.
  - now left.
  - right. eexists. f_equal. revert H. clear.
    break_state s. destruct t; simpl; intros ->; unfold step; cbn; auto.
  - apply IH. now rewrite thread_after_peer.
Qed.

Lemma wait_step n t s :
  pc (thread t s) = L64 ->
  mem (step n t s) = mem s
  /\ pc (thread t (step n t s))
     = (if turn (mem s) =? id_of t then L69 else L64).
Proof.
  break_state s. destruct t; simpl; intros ->; unfold step; cbn;
    split; auto; now destruct (tu =? _).
Qed.

Lemma path_from_64 n t sched : forall s,
  pc (thread t s) = L64 ->
  flag_load (mem s) (id_of t) = false ->
  wait_path (path n t sched s).
Proof.
  by_path t sched IH.
  - exists 0%nat. now left.
  - destruct (wait_step n t s H) as [M P]. rewrite M, H0, P.
    destruct (turn (mem s) =? id_of t).
    + destruct (@path_from_69 n t rest (step n t s) P) as [E|[r E]];
        rewrite E; exists 0%nat; simpl; eauto.
    + destruct (IH (step n t s)) as [k [E|[E|[r E]]]];
        try assumption; try congruence;
        rewrite E; exists (S k); simpl; eauto.
  - apply IH; [now rewrite thread_after_peer|].
    now rewrite peer_keeps_flag.
Qed.

Lemma path_from_61 n t sched : forall s,
  pc (thread t s) = L61 ->
  path n t sched s = []
  \/ exists q, path n t sched s = (L64, false) :: q /\ wait_path q.
Proof.
  by_path t sched IH.
  - now left.
  - right. exists (path n t rest (step n t s)).
    assert (E : pc (thread t (step n t s)) = L64
                /\ flag_load (mem (step n t s)) (id_of t) = false).
    { revert H. clear. break_state s.
      destruct t; simpl; intros ->; unfold step; cbn; auto. }
    destruct E as [P F]. rewrite P, F. split; [reflexivity|].
    now apply path_from_64.
  - apply IH. now rewrite thread_after_peer.
Qed.

Lemma path_from_60 n t sched : forall s,
  pc (thread t s) = L60 ->
  path n t sched s = []
  \/ path n t sched s = [(L61, flag_load (mem s) (id_of t))]
  \/ exists q, path n t sched s
               = (L61, flag_load (mem s) (id_of t)) :: (L64, false) :: q
               /\ wait_path q.
Proof.
  by_path t sched IH.
  - now left.
  - right.
    assert (E : pc (thread t (step n t s)) = L61
                /\ flag_load (mem (step n t s)) (id_of t)
                   = flag_load (mem s) (id_of t)).
    { revert H. clear. break_state s.
      destruct t; simpl; intros ->; unfold step; cbn; auto. }
    destruct E as [P F]. rewrite P, F.
    destruct (@path_from_61 n t rest (step n t s) P) as [E|(q & E & W)];
      rewrite E; eauto.
  - rewrite <- (peer_keeps_flag n t s).
    apply IH. now rewrite thread_after_peer.
Qed.

(** The flag of a thread that has backed off is down in memory. *)
Lemma backed_off_step n t u s :
  (backed_off (pc (thread t s)) = true ->
   flag_load (mem s) (id_of t) = false) ->
  backed_off (pc (thread t (step n u s))) = true ->
  flag_load (mem (step n u s)) (id_of t) = false.
Proof.
  destruct (tid_cases t u) as [->| ->].
  - break_state s.
    destruct t; [destruct p0 | destruct p1]; unfold step; cbn;
      split_ifs; cbn; intros H E; try discriminate; auto.
  - now rewrite thread_after_peer, peer_keeps_flag.
Qed.

Lemma backed_off_run n t sched : forall s,
  (backed_off (pc (thread t s)) = true ->
   flag_load (mem s) (id_of t) = false) ->
  backed_off (pc (thread t (run n sched s))) = true ->
  flag_load (mem (run n sched s)) (id_of t) = false.
Proof.
  induction sched as [|u rest IH]; intros s H; simpl; [exact H|].
  apply IH. now apply backed_off_step.
Qed.

(** C2. Back-off: a thread at line 59 (it has just read the peer's flag as
    true) that now reads [turn != id] backs off, in every interleaving and
    however far it gets: it goes to lines 60 and 61 with its flag as it
    was, then to line 64 with its flag false in memory, stays at line 64
    with the flag false, goes to line 69 with the flag still false, and
    from there to the loop condition of line 58 with its flag true in
    memory; whenever it is at line 64 or 69 its flag is false in memory.
    If the run brings it into the critical section, its accesses are, in
    this order: the load of [turn] just mentioned and the one of line 60,
    the store [flag[id] = false], loads of [turn] that all differ from
    [id], one load of [turn] equal to [id], the store [flag[id] = true],
    and then a load of the peer's flag.  A step at line 64 changes no
    memory and leaves the line exactly when [turn] equals [id] in memory;
    and a thread gets to line 104 only by a step of its own from line 58
    that reads the peer's flag as false. *)
Theorem back_off_then_recheck (n : Z) (t : tid) (s : state) (sched : list tid) :
  pc (thread t s) = L59 ->
  turn (mem s) <> id_of t ->
  let u := run n (t :: sched) s in
  back_off_path (flag_load (mem s) (id_of t)) (path n t (t :: sched) s)
  /\ (backed_off (pc (thread t u)) = true ->
      flag_load (mem u) (id_of t) = false)
  /\ (pc (thread t u) = L104 ->
      exists v w c rest,
        Forall (fun v => v <> id_of t) w
        /\ events_of t (trace n (t :: sched) s)
           = EvLoad Turn (VInt (turn (mem s))) memory_order_seq_cst
             :: EvLoad Turn (VInt v) memory_order_seq_cst
             :: back_off_accesses (id_of t) w c ++ rest)
  /\ (forall s',
        pc (thread t s') = L64 ->
        mem (step n t s') = mem s'
        /\ pc (thread t (step n t s'))
           = (if turn (mem s') =? id_of t then L69 else L64))
  /\ (forall s' u',
        pc (thread t (step n u' s')) = L104 ->
        pc (thread t s') <> L104 ->
        u' = t /\ pc (thread t s') = L58
        /\ flag_load (mem s') (1 - id_of t) = false).
Proof.
  intros H T u.
  assert (E : pc (thread t (step n t s)) = L60
              /\ flag_load (mem (step n t s)) (id_of t)
                 = flag_load (mem s) (id_of t)
              /\ step_events n t s
                 = [EvLoad Turn (VInt (turn (mem s))) memory_order_seq_cst]).
  { revert H T. clear. own_step s t; auto. }
  destruct E as (P & F & Ev).
  split; [|split; [|split; [|split]]].
  - rewrite path_own, P, F. unfold back_off_path. rewrite <- F.
    destruct (@path_from_60 n t sched (step n t s) P)
      as [E|[E|(q & E & W)]]; rewrite E; eauto.
  - apply backed_off_run. rewrite H. discriminate.
  - intros Hu. rewrite events_own, Ev. simpl.
    destruct (@report_from_60 n t sched (step n t s) P Hu)
      as (v & w & c & r & Fw & R).
    rewrite R. exists v, w, c, r. auto.
  - intros s'. apply wait_step.
  - intros s' u'. apply enter_only_from_58.
Qed.

(** Thread 1 backs off while thread 0 holds the section, spins twice at
    line 64, and enters after thread 0 has released. *)
Lemma back_off_then_recheck_witness :
  let s := run NUM_ITERATIONS [T0; T0; T0; T1; T1; T1; T1] init in
  let sched := [T1; T1; T1; T0; T0; T0; T1; T0; T0; T0; T0; T1; T1; T1] in
  pc (thread T1 s) = L59
  /\ turn (mem s) <> id_of T1
  /\ path NUM_ITERATIONS T1 (T1 :: sched) s
     = [(L60, true); (L61, true); (L64, false); (L64, false); (L64, false);
        (L69, false); (L58, true); (L104, true)]
  /\ back_off_path (flag_load (mem s) (id_of T1))
       (path NUM_ITERATIONS T1 (T1 :: sched) s)
  /\ exists v w c rest,
       Forall (fun v => v <> id_of T1) w
       /\ events_of T1 (trace NUM_ITERATIONS (T1 :: sched) s)
          = EvLoad Turn (VInt (turn (mem s))) memory_order_seq_cst
            :: EvLoad Turn (VInt v) memory_order_seq_cst
            :: back_off_accesses (id_of T1) w c ++ rest.
Proof.
  intros s sched.
  assert (H1 : pc (thread T1 s) = L59) by reflexivity.
  assert (H2 : turn (mem s) <> id_of T1) by (vm_compute; discriminate).
  destruct (@back_off_then_recheck NUM_ITERATIONS T1 s sched H1 H2)
    as (A & _ & B & _).
  split; [exact H1|]. split; [exact H2|]. split; [reflexivity|].
  split; [exact A|]. apply B. reflexivity.
Defined.

(** ** Overtaking *)

(** C7, as stated, fails: thread 1 backs off at line 61 and spins at line
    64; thread 0 enters, releases, and enters again before thread 1 reads
    [turn] once more.  Thread 1 is inside [dekker_lock] all the time. *)
Lemma overtaking_counterexample : ~ no_overtaking NUM_ITERATIONS.
Proof.
  intros H.
  specialize (H T0 overtaking_prefix overtaking_schedule eq_refl).
  vm_compute in H. lia.
Qed.

(** In that run thread 1 is backed off, at line 64, in every state. *)
Lemma overtaking_while_backed_off :
  let s := run NUM_ITERATIONS overtaking_prefix init in
  stays NUM_ITERATIONS backed_off T1 overtaking_schedule s = true
  /\ acquisitions NUM_ITERATIONS T0 overtaking_schedule s = 2%nat.
Proof. split; reflexivity. Qed.

Lemma peer_step_turn n t s :
  turn (mem s) = id_of t -> turn (mem (step n (peer t) s)) = id_of t.
Proof.
  break_state s.
  destruct t; [destruct p1 | destruct p0]; unfold step; cbn; auto.
Qed.

Lemma peer_blocked n t s :
  flag_load (mem s) (id_of t) = true -> enters n (peer t) s = false.
Proof.
  break_state s. unfold enters.
  destruct t; [destruct p1 | destruct p0]; unfold step; cbn; auto;
    intros ->; reflexivity.
Qed.

Lemma contending_step n t s :
  flag_load (mem s) (id_of t) = true ->
  turn (mem s) = id_of t ->
  contending (pc (thread t s)) = true ->
  in_lock (pc (thread t (step n t s))) = true ->
  flag_load (mem (step n t s)) (id_of t) = true
  /\ turn (mem (step n t s)) = id_of t
  /\ contending (pc (thread t (step n t s))) = true.
Proof.
  break_state s.
  destruct t; [destruct p0 | destruct p1]; unfold step; cbn;
    try discriminate; intros; subst; cbn in *; split_ifs; cbn in *;
    try discriminate; auto.
Qed.

Lemma flag_after_peer n t s :
  flag_load (mem (step n (peer t) s)) (id_of t) = flag_load (mem s) (id_of t).
Proof.
  pose proof (step_flag_other n (peer t) s) as H.
  now rewrite peer_peer in H.
Qed.

Lemma tid_eqb_peer_r t : tid_eqb t (peer t) = false.
Proof. now destruct t. Qed.

Lemma stays_head n w t sched s :
  stays n w t sched s = true -> w (pc (thread t s)) = true.
Proof.
  destruct sched; simpl; intros H; apply andb_true_iff in H; apply H.
Qed.

(** C7, amended. Once a thread inside [dekker_lock] has its flag up, has
    the turn and is at the loop of line 58 (it has taken no decision to
    back off), its peer does not acquire the critical section in any run
    in which the thread stays inside [dekker_lock]. *)
Theorem raised_flag_wins (n : Z) (t : tid) (sched : list tid) (s : state) :
  flag_load (mem s) (id_of t) = true ->
  turn (mem s) = id_of t ->
  contending (pc (thread t s)) = true ->
  stays n in_lock t sched s = true ->
  acquisitions n (peer t) sched s = 0%nat.
Proof.
  revert s. induction sched as [|u rest IH]; intros s F T C S; [reflexivity|].
  simpl in *. apply andb_true_iff in S as [_ S].
  destruct (tid_cases t u) as [->| ->].
  - rewrite tid_eqb_peer_r. simpl.
    destruct (contending_step n t s F T C (stays_head _ _ _ _ _ S))
      as (F' & T' & C').
    now apply IH.
  - rewrite (peer_blocked n t s F), andb_false_r. simpl. apply IH; auto.
    + now rewrite flag_after_peer.
    + now apply peer_step_turn.
    + now rewrite thread_after_peer.
Qed.

Lemma raised_flag_wins_witness :
  let s := run NUM_ITERATIONS (repeat T0 10 ++ [T1; T1]) init in
  let sched := [T0; T0; T0; T0; T1; T0; T1; T0; T0; T0] in
  flag_load (mem s) (id_of T1) = true
  /\ turn (mem s) = id_of T1
  /\ contending (pc (thread T1 s)) = true
  /\ stays NUM_ITERATIONS in_lock T1 sched s = true
  /\ acquisitions NUM_ITERATIONS (peer T1) sched s = 0%nat.
Proof.
  intros s sched.
  split; [reflexivity|]. split; [reflexivity|]. split; [reflexivity|].
  split; [reflexivity|].
  apply (@raised_flag_wins NUM_ITERATIONS T1 sched s); reflexivity.
Defined.

(** ** Termination under fair scheduling *)

Lemma served_init : served init.
Proof. intros []; simpl; discriminate. Qed.

Lemma served_step n s t : safe s -> served s -> served (step n t s).
Proof.
  break_state s. intros [F0 F1 M _ T E84 _ _] V. simpl in *.
  pose proof (E84 T0) as A0. pose proof (E84 T1) as A1.
  pose proof (V T0) as V0. pose proof (V T1) as V1.
  clear E84 V. simpl in *.
  destruct t, p0, p1; simpl in *; try discriminate;
    unfold step; cbn; split_ifs; intros []; cbn; intros;
    try discriminate; subst; auto;
    try (specialize (A0 eq_refl)); try (specialize (A1 eq_refl));
    try congruence; try lia.
Qed.

Lemma reachable_served n s : reachable n s -> served s.
Proof.
  induction 1; [apply served_init|].
  apply served_step; auto. now apply reachable_safe with n.
Qed.

Local Arguments Z.mul : simpl never.

(** A blocked thread only moves inside its spin loop. *)
Lemma blocked_step n t s :
  blocked t s = true ->
  measure n (step n t s) = measure n s
  /\ (forall u, blocked u (step n t s) = blocked u s)
  /\ finished (step n t s) = finished s.
Proof.
  break_state s. unfold measure, weight, finished.
  destruct t; [destruct p0 | destruct p1]; cbn; try discriminate;
    unfold step; cbn; intros B;
    try (apply andb_true_iff in B as [B1 B2]; rewrite B1; subst);
    try (apply negb_true_iff in B; rewrite B);
    cbn; (split; [reflexivity|]); (split; [|reflexivity]);
    intros []; cbn; rewrite ?B1, ?B; reflexivity.
Qed.



Lemma spin_range p a b : 0 <= spin p a b <= 2.
Proof. destruct p, a, b; simpl; lia. Qed.

Lemma distance_mine p : distance p true <= distance p false.
Proof. destruct p; simpl; lia. Qed.

Ltac spin_facts p :=
  pose proof (spin_range p true true); pose proof (spin_range p true false);
  pose proof (spin_range p false true); pose proof (spin_range p false false);
  pose proof (distance_mine p).

(** A thread that is not blocked brings the run closer to its end. *)
Lemma unblocked_step n s t :
  2 * n <= INT_MAX ->
  safe s -> counting n s ->
  blocked t s = false ->
  measure n (step n t s) < measure n s.
Proof.
  intros Hmax.
  assert (Hn : n <= 1073741823) by (unfold INT_MAX in Hmax; lia).
  clear Hmax.
  break_state s. intros [_ _ _ _ T _ E69 _] [R B _ _ _].
  pose proof (E69 T0) as A0. pose proof (E69 T1) as A1.
  pose proof (B T0) as B0. pose proof (B T1) as B1.
  pose proof (R T0) as R0. pose proof (R T1) as R1.
  clear E69 B R. unfold measure, weight. cbn in *.
  spin_facts p0. spin_facts p1.
  destruct t; [destruct p0 | destruct p1]; cbn in *;
    unfold step; cbn; intros Hb; try discriminate;
    try (specialize (A0 eq_refl)); try (specialize (A1 eq_refl));
    try (specialize (B0 eq_refl)); try (specialize (B1 eq_refl));
    try rewrite wrap_int_id by lia;
    destruct T; subst tu; try discriminate; cbn in *;
    destruct f0, f1; cbn in *; try discriminate; split_ifs; cbn;
    rewrite ?wrap_int_id by lia; lia.
Qed.

Lemma measure_nonneg n s : counting n s -> 0 <= measure n s.
Proof.
  intros C. unfold measure, weight.
  pose proof (cnt_range C T0). pose proof (cnt_range C T1).
  assert (D : forall p b, 0 <= distance p b) by (destruct p, b; simpl; lia).
  pose proof (D (pc (thread T0 s)) (turn (mem s) =? id_of T0)).
  pose proof (D (pc (thread T1 s)) (turn (mem s) =? id_of T1)).
  pose proof (spin_range (pc (thread T0 s)) (turn (mem s) =? id_of T0)
                (flag_load (mem s) (id_of (peer T0)))).
  pose proof (spin_range (pc (thread T1 s)) (turn (mem s) =? id_of T1)
                (flag_load (mem s) (id_of (peer T1)))).
  lia.
Qed.

(** Unless both threads are past their loops, one of them is not
    blocked. *)
Lemma helpful_unblocked s :
  safe s -> served s -> finished s = false -> blocked (helpful s) s = false.
Proof.
  unfold helpful. destruct (blocked T0 s) eqn:B0; [|auto].
  destruct (blocked T1 s) eqn:B1; [|auto]. revert B0 B1.
  break_state s. intros B0 B1 [F0 F1 _ _ T _ _ _] V Hf. exfalso.
  pose proof (V T0) as V0. pose proof (V T1) as V1. clear V.
  unfold blocked, finished in *. cbn in *.
  destruct p0; try discriminate; destruct p1; try discriminate;
    cbn in *; subst; cbn in *;
    destruct T; subst tu; cbn in *; try discriminate;
    try (specialize (V0 eq_refl eq_refl)); try (specialize (V1 eq_refl eq_refl));
    discriminate.
Qed.

Section FairRun.

Variable n : Z.
Variable sigma : nat -> tid.
Hypothesis n_range : 0 <= n /\ 2 * n <= INT_MAX.
Hypothesis sigma_fair : fair sigma.

Lemma run_to_reachable k : reachable n (run_to n sigma k).
Proof. induction k; simpl; now constructor. Qed.

Lemma run_to_counting k : counting n (run_to n sigma k).
Proof.
  destruct n_range. apply reachable_counting; auto. apply run_to_reachable.
Qed.

(** If the helpful thread of the state at instant [k] moves at instant
    [k + d], the measure is smaller at some later instant. *)
Lemma measure_drops d : forall k,
  finished (run_to n sigma k) = false ->
  sigma (k + d)%nat = helpful (run_to n sigma k) ->
  exists k', (k < k')%nat
             /\ measure n (run_to n sigma k') < measure n (run_to n sigma k).
Proof.
  induction d as [|d IH]; intros k Hf Hh.
  - exists (S k). split; [lia|]. simpl.
    rewrite Nat.add_0_r in Hh. rewrite Hh.
    pose proof (run_to_reachable k) as R.
    apply unblocked_step; try apply n_range.
    + now apply reachable_safe with n.
    + apply run_to_counting.
    + apply helpful_unblocked; auto.
      * now apply reachable_safe with n.
      * now apply reachable_served with n.
  - destruct (blocked (sigma k) (run_to n sigma k)) eqn:B.
    + destruct (blocked_step n _ _ B) as (M & Bs & F).
      destruct (IH (S k)) as (k' & Hk & Hm).
      * simpl. now rewrite F.
      * simpl. unfold helpful. rewrite Bs.
        rewrite <- Nat.add_succ_r. exact Hh.
      * exists k'. split; [lia|]. simpl in Hm. now rewrite M in Hm.
    + exists (S k). split; [lia|]. simpl.
      pose proof (run_to_reachable k) as R.
      apply unblocked_step; try apply n_range; auto.
      * now apply reachable_safe with n.
      * apply run_to_counting.
Qed.

Lemma finishes_from m : forall k,
  (Z.to_nat (measure n (run_to n sigma k)) <= m)%nat ->
  exists k', finished (run_to n sigma k') = true.
Proof.
  induction m as [|m IH]; intros k Hm;
    destruct (finished (run_to n sigma k)) eqn:Hf; eauto;
    destruct (sigma_fair (helpful (run_to n sigma k)) k) as (k1 & Hk & Hs);
    destruct (@measure_drops (k1 - k) k Hf) as (k' & _ & Hd);
    try (now replace (k + (k1 - k))%nat with k1 by lia);
    pose proof (measure_nonneg (run_to_counting k'));
    [lia | apply (IH k'); lia].
Qed.

Lemma finishes : exists k, finished (run_to n sigma k) = true.
Proof. apply (finishes_from (m := Z.to_nat (measure n init)) 0). simpl. lia. Qed.

End FairRun.

Lemma finished_stable n t s : finished s = true -> step n t s = s.
Proof.
  intros H. apply finished_both in H as [H0 H1]. revert H0 H1.
  break_state s. simpl. intros -> ->. now destruct t.
Qed.

Lemma alternate_fair : fair alternate.
Proof.
  intros t k. unfold alternate.
  destruct (Nat.even k) eqn:E, t.
  - exists k. rewrite E. split; [lia|reflexivity].
  - exists (S k). rewrite Nat.even_succ, <- Nat.negb_even, E.
    split; [lia|reflexivity].
  - exists (S k). rewrite Nat.even_succ, <- Nat.negb_even, E.
    split; [lia|reflexivity].
  - exists k. rewrite E. split; [lia|reflexivity].
Qed.

(** C8. Termination: under every fair schedule of the two threads the run
    with [NUM_ITERATIONS = 5] reaches a state in which both threads are
    past their loops, so that both joins of [main] return; from then on no
    step changes the state. *)
Theorem fair_termination (sigma : nat -> tid) :
  fair sigma ->
  exists k,
    finished (run_to NUM_ITERATIONS sigma k) = true
    /\ forall k', (k <= k')%nat ->
                  run_to NUM_ITERATIONS sigma k' = run_to NUM_ITERATIONS sigma k.
Proof.
  intros F.
  destruct (@finishes NUM_ITERATIONS sigma) as [k Hk]; auto.
  { unfold NUM_ITERATIONS, INT_MAX. lia. }
  exists k. split; [exact Hk|].
  induction 1 as [|k' _ IH]; [reflexivity|].
  simpl. rewrite IH. now apply finished_stable.
Qed.

Lemma fair_termination_witness :
  fair alternate
  /\ exists k, finished (run_to NUM_ITERATIONS alternate k) = true.
Proof.
  split; [exact alternate_fair|].
  destruct (@fair_termination alternate alternate_fair) as (k & Hk & _).
  exists k. exact Hk.
Defined.



(** ** Memory order of the protocol accesses *)

(** Every access of every run carries [memory_order_seq_cst], as written in
    [dekker_lock] and [dekker_unlock] and as implied by the defaults of
    [load], [store], [++] and [--] elsewhere. *)
Lemma accesses_seq_cst n sched s t e o :
  In (t, e) (trace n sched s) -> order_of e = Some o ->
  o = memory_order_seq_cst.
Proof.
  intros H. apply in_trace in H as (a & b & _ & H). revert H.
  generalize (run n a s). clear. intros s. break_state s.
  destruct t; [destruct p0 | destruct p1]; unfold step_events; cbn;
    split_ifs; cbn; intros H;
    repeat (destruct H as [H|H]; [subst e; cbn; congruence|]);
    destruct H.
Qed.

(* ================================================================== *)
(** * Further properties of the program *)

(** ** Flags *)

(** X1. In every state of every interleaving a thread's flag is up exactly
    at the points between one of its raises (lines 49, 69) and its next
    lowering (lines 61, 84); it is down while the thread spins on [turn]
    at line 64 and outside [dekker_lock] .. [dekker_unlock]. *)
Theorem flag_mirrors_position (n : Z) (sched : list tid) (t : tid) :
  let s := run n sched init in
  flag_load (mem s) (id_of t) = raised (pc (thread t s))
  /\ (backed_off (pc (thread t s)) = true ->
      flag_load (mem s) (id_of t) = false)
  /\ (in_body (pc (thread t s)) = false ->
      flag_load (mem s) (id_of t) = false).
Proof.
  intros s.
  assert (F : flag_load (mem s) (id_of t) = raised (pc (thread t s)))
    by apply (@flag_raised n), run_reachable.
  split; [exact F|]. rewrite F.
  split; destruct (pc (thread t s)); simpl; congruence.
Qed.

(** X2. Each thread stores only to its own flag and loads only the peer's
    flag, from whatever state the run starts; no flag is ever the target
    of a read-modify-write. *)
Theorem flag_access_discipline (n : Z) (sched : list tid) (s : state)
  (t : tid) (e : event) :
  In (t, e) (trace n sched s) ->
  match e with
  | EvStore (Flag k) _ _ => k = id_of t
  | EvLoad (Flag k) _ _ => k = 1 - id_of t
  | EvRmw (Flag _) _ _ _ => False
  | _ => True
  end.
Proof.
  intros H. apply in_trace in H as (a & b & _ & H). revert H.
  generalize (run n a s). clear. intros s. break_state s.
  destruct t; [destruct p0 | destruct p1]; unfold step_events; cbn;
    split_ifs; cbn; intros H;
    repeat (destruct H as [H|H]; [subst e; cbn; auto|]);
    destruct H.
Qed.

Lemma flag_access_discipline_witness :
  In (T1, EvStore (Flag 1) (VBool true) memory_order_seq_cst)
     (trace NUM_ITERATIONS [T1; T1] init)
  /\ 1 = id_of T1.
Proof.
  assert (H : In (T1, EvStore (Flag 1) (VBool true) memory_order_seq_cst)
                 (trace NUM_ITERATIONS [T1; T1] init))
    by (simpl; auto).
  split; [exact H|].
  exact (@flag_access_discipline NUM_ITERATIONS [T1; T1] init T1 _ H).
Defined.

(** ** Payload *)

(** X3. In every interleaving a thread touches [shared_counter] only while
    it holds the critical section and its peer does not. *)
Theorem payload_access_exclusive (n : Z) (sched : list tid) (t : tid)
  (e : event) :
  let s := run n sched init in
  In e (step_events n t s) ->
  location_of e = Some SharedCounter ->
  holds (pc (thread t s)) = true /\ holds (pc (thread (peer t) s)) = false.
Proof.
  intros s H L.
  pose proof (reachable_safe (run_reachable n sched)) as S. fold s in S.
  assert (A : holds (pc (thread t s)) = true).
  { revert H L. generalize s. clear. intros s. break_state s.
    destruct t; [destruct p0 | destruct p1]; unfold step_events; cbn;
      split_ifs; cbn; intros H;
      repeat (destruct H as [H|H]; [subst e; cbn; congruence|]);
      destruct H. }
  split; [exact A|]. pose proof (safe_mutex S) as M.
  destruct t; simpl in *; rewrite A in M; simpl in M;
    [exact M | now rewrite andb_true_r in M].
Qed.

Lemma payload_access_exclusive_witness :
  let s := run NUM_ITERATIONS [T0; T0; T0; T0; T0] init in
  In (EvLoad SharedCounter (VInt 0) memory_order_seq_cst)
     (step_events NUM_ITERATIONS T0 s)
  /\ holds (pc (thread T0 s)) = true
  /\ holds (pc (thread (peer T0) s)) = false.
Proof.
  intros s.
  assert (H : In (EvLoad SharedCounter (VInt 0) memory_order_seq_cst)
                 (step_events NUM_ITERATIONS T0 s)) by (simpl; auto).
  split; [exact H|].
  exact (@payload_access_exclusive NUM_ITERATIONS [T0; T0; T0; T0; T0] T0
           _ H eq_refl).
Defined.

Lemma step_counter n s t :
  2 * n <= INT_MAX -> safe s -> counting n s ->
  shared_counter (mem (step n t s)) = shared_counter (mem s)
  \/ (pc (thread t s) = L116
      /\ shared_counter (mem (step n t s)) = shared_counter (mem s) + 1).
Proof.
  intros Hmax S C.
  pose proof (cnt_old C t) as O. pose proof (cnt_total C) as Tot.
  pose proof (cnt_range C T0) as R0. pose proof (cnt_range C T1) as R1.
  pose proof (cnt_body C T0) as B0. pose proof (cnt_body C T1) as B1.
  pose proof (safe_mutex S) as M. unfold increments in Tot.
  pose proof (b2z_range (stored (pc (th0 s)))).
  pose proof (b2z_range (stored (pc (th1 s)))).
  assert (Hn : n <= 1073741823) by (unfold INT_MAX in Hmax; lia).
  clear Hmax S C. revert O Tot R0 R1 B0 B1 M H H0. break_state s.
  destruct t; [destruct p0 | destruct p1]; unfold step; cbn; auto;
    intros O Tot R0 R1 B0 B1 M H H0; right; split; auto;
    rewrite (O eq_refl); apply wrap_int_id; subst sc;
    repeat match goal with p : label |- _ => destruct p end;
    cbn in *; try discriminate;
    try specialize (B0 eq_refl); try specialize (B1 eq_refl); lia.
Qed.

(** X4. No update of the payload is lost: for a loop bound whose double
    fits an [int], in every state of every interleaving [shared_counter]
    lies between 0 and [2 * n] and equals the number of increments the two
    threads have stored; a step leaves it unchanged or, at line 116, adds
    exactly one to the value then in memory. *)
Theorem payload_no_lost_update (n : Z) (sched : list tid) (t : tid) :
  0 <= n -> 2 * n <= INT_MAX ->
  let s := run n sched init in
  0 <= shared_counter (mem s) <= 2 * n
  /\ shared_counter (mem s) = increments (th0 s) + increments (th1 s)
  /\ (shared_counter (mem (step n t s)) = shared_counter (mem s)
      \/ (pc (thread t s) = L116
          /\ shared_counter (mem (step n t s)) = shared_counter (mem s) + 1)).
Proof.
  intros Hn Hmax s.
  pose proof (reachable_safe (run_reachable n sched)) as S.
  pose proof (reachable_counting Hn Hmax (run_reachable n sched)) as C.
  fold s in S, C. split; [|split; [apply C | now apply step_counter]].
  rewrite (cnt_total C). unfold increments.
  pose proof (cnt_range C T0) as R0. pose proof (cnt_range C T1) as R1.
  pose proof (cnt_body C T0) as B0. pose proof (cnt_body C T1) as B1.
  simpl in *.
  destruct (pc (th0 s)), (pc (th1 s)); simpl in *;
    try specialize (B0 eq_refl); try specialize (B1 eq_refl); lia.
Qed.

Lemma payload_no_lost_update_witness :
  let s := run NUM_ITERATIONS (repeat T1 6) init in
  pc (thread T1 s) = L116
  /\ shared_counter (mem (step NUM_ITERATIONS T1 s))
     = shared_counter (mem s) + 1.
Proof.
  intros s.
  destruct (@payload_no_lost_update NUM_ITERATIONS (repeat T1 6) T1)
    as (_ & _ & [H|H]).
  - unfold NUM_ITERATIONS. lia.
  - unfold NUM_ITERATIONS, INT_MAX. lia.
  - discriminate H.
  - exact H.
Defined.

(** ** Integer range *)

(** X5. No arithmetic of a run leaves the range of [int]: for a loop bound
    whose double fits an [int], in every state of every interleaving the
    increment of line 104, the addition of line 115, the decrement of line
    119 and the [i++] of the loop give the mathematical result. *)
Theorem no_signed_overflow (n : Z) (sched : list tid) (t : tid) :
  0 <= n -> 2 * n <= INT_MAX ->
  let s := run n sched init in
  let l := thread t s in
  (pc l = L104 ->
   wrap_int (in_critical_section (mem s) + 1) = in_critical_section (mem s) + 1)
  /\ (pc l = L116 -> wrap_int (old_val l + 1) = old_val l + 1)
  /\ (pc l = L119 ->
      wrap_int (in_critical_section (mem s) - 1)
      = in_critical_section (mem s) - 1)
  /\ (pc l = L126 -> wrap_int (i l + 1) = i l + 1).
Proof.
  intros Hn Hmax s l.
  pose proof (reachable_safe (run_reachable n sched)) as S.
  pose proof (reachable_counting Hn Hmax (run_reachable n sched)) as C.
  fold s in S, C.
  assert (Hb : n <= 1073741823) by (unfold INT_MAX in Hmax; lia).
  pose proof (b2z_range (counted (pc (th0 s)))).
  pose proof (b2z_range (counted (pc (th1 s)))).
  pose proof (b2z_range (stored (pc (th0 s)))).
  pose proof (b2z_range (stored (pc (th1 s)))).
  pose proof (safe_count S) as K. pose proof (cnt_total C) as Tot.
  pose proof (cnt_range C T0) as R0. pose proof (cnt_range C T1) as R1.
  pose proof (cnt_body C T0) as B0. pose proof (cnt_body C T1) as B1.
  pose proof (cnt_old C t) as O.
  unfold increments in Tot. unfold l. clear l. simpl in R0, R1, B0, B1.
  repeat split; intros E; apply wrap_int_id; try rewrite (O E);
    destruct t; simpl in *; rewrite E in *; simpl in *;
    try specialize (B0 eq_refl); try specialize (B1 eq_refl);
    first [ destruct (pc (th1 s)) | destruct (pc (th0 s)) ]; simpl in *;
    try specialize (B0 eq_refl); try specialize (B1 eq_refl); lia.
Qed.

Lemma no_signed_overflow_witness :
  let s := run NUM_ITERATIONS (repeat T0 6) init in
  pc (thread T0 s) = L116
  /\ wrap_int (old_val (thread T0 s) + 1) = old_val (thread T0 s) + 1.
Proof.
  intros s. split; [reflexivity|].
  destruct (@no_signed_overflow NUM_ITERATIONS (repeat T0 6) T0)
    as (_ & H & _).
  - unfold NUM_ITERATIONS. lia.
  - unfold NUM_ITERATIONS, INT_MAX. lia.
  - apply H. reflexivity.
Defined.

(** ** Number of entries *)

Lemma entered_step n s t u :
  2 * n <= INT_MAX -> counting n s ->
  entered_count (thread t (step n u s))
  = entered_count (thread t s)
    + (if tid_eqb u t && enters n t s then 1 else 0).
Proof.
  intros Hmax C. destruct (tid_cases t u) as [->| ->].
  - rewrite tid_eqb_refl. simpl.
    pose proof (cnt_range C t) as R. pose proof (cnt_body C t) as B.
    assert (Hb : n <= 1073741823) by (unfold INT_MAX in Hmax; lia).
    clear Hmax C. revert R B. unfold enters, entered_count. break_state s.
    destruct t; [destruct p0 | destruct p1]; unfold step; cbn;
      intros R B; try specialize (B eq_refl); split_ifs; cbn;
      cbn in *; try discriminate; rewrite ?wrap_int_id by lia; lia.
  - rewrite tid_eqb_peer. simpl. rewrite thread_after_peer. lia.
Qed.

Lemma acquisitions_count n t sched : forall s,
  0 <= n -> 2 * n <= INT_MAX -> reachable n s ->
  Z.of_nat (acquisitions n t sched s)
  = entered_count (thread t (run n sched s)) - entered_count (thread t s).
Proof.
  induction sched as [|u rest IH]; intros s Hn Hmax R; simpl; [lia|].
  rewrite Nat2Z.inj_add, IH by (auto; now constructor).
  rewrite (@entered_step n s t u) by (auto; now apply reachable_counting).
  destruct (tid_eqb u t && enters n t s); lia.
Qed.

(** X6. Each thread acquires the critical section exactly [n] times in a
    run that ends with both threads past their loops, and never more than
    [n] times in any run. *)
Theorem acquisitions_complete (n : Z) (sched : list tid) (t : tid) :
  0 <= n -> 2 * n <= INT_MAX ->
  Z.of_nat (acquisitions n t sched init) <= n
  /\ (finished (run n sched init) = true ->
      Z.of_nat (acquisitions n t sched init) = n).
Proof.
  intros Hn Hmax.
  rewrite acquisitions_count by (auto; constructor).
  pose proof (reachable_counting Hn Hmax (run_reachable n sched)) as C.
  pose proof (cnt_range C t) as R. pose proof (cnt_body C t) as B.
  pose proof (cnt_fin C t) as F.
  replace (entered_count (thread t init)) with 0 by now destruct t.
  unfold entered_count. split.
  - destruct (pc (thread t (run n sched init))); cbn in *;
      try specialize (B eq_refl); lia.
  - intros Hf. apply finished_both in Hf as [H0 H1].
    assert (E : pc (thread t (run n sched init)) = LFin) by now destruct t.
    rewrite E in *. cbn. specialize (F eq_refl). lia.
Qed.

Lemma acquisitions_complete_witness :
  finished (run NUM_ITERATIONS sequential init) = true
  /\ Z.of_nat (acquisitions NUM_ITERATIONS T1 sequential init) = 5.
Proof.
  split; [reflexivity|].
  destruct (@acquisitions_complete NUM_ITERATIONS sequential T1) as [_ H].
  - unfold NUM_ITERATIONS. lia.
  - unfold NUM_ITERATIONS, INT_MAX. lia.
  - apply H. reflexivity.
Defined.

(** ** Progress *)

Lemma blocked_memory n t s : blocked t s = true -> mem (step n t s) = mem s.
Proof.
  break_state s.
  destruct t; [destruct p0 | destruct p1]; cbn; try discriminate;
    unfold step; cbn; reflexivity.
Qed.

(** X7. No deadlock: in every state of every interleaving in which some
    thread is not yet past its loop, one of the two threads is not
    spinning: its next step brings the run strictly closer to its end (the
    measure, which is never negative, decreases), whereas a step of a
    spinning thread leaves the shared memory as it is. *)
Theorem no_deadlock (n : Z) (sched : list tid) :
  0 <= n -> 2 * n <= INT_MAX ->
  let s := run n sched init in
  finished s = false ->
  0 <= measure n s
  /\ (exists t, blocked t s = false /\ measure n (step n t s) < measure n s)
  /\ (forall u, blocked u s = true ->
                mem (step n u s) = mem s
                /\ measure n (step n u s) = measure n s).
Proof.
  intros Hn Hmax s Hf.
  pose proof (run_reachable n sched) as R. fold s in R.
  pose proof (reachable_safe R) as S.
  pose proof (reachable_counting Hn Hmax R) as C.
  pose proof (reachable_served R) as V.
  split; [now apply measure_nonneg|]. split.
  - exists (helpful s).
    pose proof (helpful_unblocked S V Hf) as B. split; [exact B|].
    now apply unblocked_step.
  - intros u B. split; [now apply blocked_memory|].
    now apply blocked_step.
Qed.

Lemma no_deadlock_witness :
  let s := run NUM_ITERATIONS overtaking_prefix init in
  finished s = false
  /\ exists t, blocked t s = false
               /\ measure NUM_ITERATIONS (step NUM_ITERATIONS t s)
                  < measure NUM_ITERATIONS s.
Proof.
  intros s. split; [reflexivity|].
  destruct (@no_deadlock NUM_ITERATIONS overtaking_prefix) as (_ & H & _).
  - unfold NUM_ITERATIONS. lia.
  - unfold NUM_ITERATIONS, INT_MAX. lia.
  - reflexivity.
  - exact H.
Defined.

Lemma run_to_stable n sigma k :
  finished (run_to n sigma k) = true ->
  forall k', (k <= k')%nat -> run_to n sigma k' = run_to n sigma k.
Proof.
  intros Hk. induction 1 as [|k' _ IH]; [reflexivity|].
  simpl. rewrite IH. now apply finished_stable.
Qed.

Lemma lock_exit n t u s :
  in_lock (pc (thread t s)) = true ->
  in_lock (pc (thread t (step n u s))) = true
  \/ pc (thread t (step n u s)) = L104.
Proof.
  destruct (tid_cases t u) as [->| ->].
  - break_state s.
    destruct t; [destruct p0 | destruct p1]; cbn; try discriminate;
      unfold step; cbn; split_ifs; cbn; auto.
  - rewrite thread_after_peer. auto.
Qed.

Lemma leaves_lock_by_entering n sigma t d : forall k,
  in_lock (pc (thread t (run_to n sigma k))) = true ->
  in_lock (pc (thread t (run_to n sigma (k + d)))) = false ->
  exists k', (k < k')%nat /\ pc (thread t (run_to n sigma k')) = L104.
Proof.
  induction d as [|d IH]; intros k Hk Hd.
  - rewrite Nat.add_0_r in Hd. congruence.
  - destruct (lock_exit n t (sigma k) _ Hk) as [H|H].
    + destruct (IH (S k)) as (k' & Hlt & E); auto.
      * now rewrite Nat.add_succ_comm.
      * exists k'. split; [lia|exact E].
    + exists (S k). split; [lia|exact H].
Qed.

(** X8. No starvation under fair scheduling: for a loop bound whose double
    fits an [int] and every fair schedule, a thread that is inside
    [dekker_lock] at some instant has returned from it, to line 104, at a
    later instant. *)
Theorem fair_entry (n : Z) (sigma : nat -> tid) (t : tid) (k : nat) :
  0 <= n -> 2 * n <= INT_MAX ->
  fair sigma ->
  in_lock (pc (thread t (run_to n sigma k))) = true ->
  exists k', (k < k')%nat /\ pc (thread t (run_to n sigma k')) = L104.
Proof.
  intros Hn Hmax F Hk.
  destruct (@finishes n sigma (conj Hn Hmax) F) as [K HK].
  assert (E : pc (thread t (run_to n sigma K)) = LFin).
  { apply finished_both in HK as [H0 H1]. now destruct t. }
  destruct (Nat.le_gt_cases K k) as [Hle|Hlt].
  - rewrite (@run_to_stable n sigma K HK k Hle) in Hk.
    rewrite E in Hk. discriminate.
  - apply (@leaves_lock_by_entering n sigma t (K - k) k Hk).
    replace (k + (K - k))%nat with K by lia. now rewrite E.
Qed.

Lemma fair_entry_witness :
  fair alternate
  /\ in_lock (pc (thread T0 (run_to NUM_ITERATIONS alternate 2))) = true
  /\ exists k', (2 < k')%nat
                /\ pc (thread T0 (run_to NUM_ITERATIONS alternate k')) = L104.
Proof.
  split; [exact alternate_fair|]. split; [reflexivity|].
  apply (@fair_entry NUM_ITERATIONS alternate T0 2).
  - unfold NUM_ITERATIONS. lia.
  - unfold NUM_ITERATIONS, INT_MAX. lia.
  - exact alternate_fair.
  - reflexivity.
Defined.

(** X9. The whole program: for a loop bound whose double fits an [int] and
    every fair schedule, the run reaches a state in which both threads are
    past their loops, [shared_counter] equals [2 * n], and [main] prints
    the success verdict. *)
Theorem fair_run_verified (n : Z) (sigma : nat -> tid) :
  0 <= n -> 2 * n <= INT_MAX ->
  fair sigma ->
  exists k,
    finished (run_to n sigma k) = true
    /\ shared_counter (mem (run_to n sigma k)) = 2 * n
    /\ main_verdict n (run_to n sigma k) = Verified.
Proof.
  intros Hn Hmax F.
  destruct (@finishes n sigma (conj Hn Hmax) F) as [K HK].
  exists K. split; [exact HK|].
  pose proof (reachable_counting Hn Hmax (run_to_reachable n sigma K)) as C.
  apply finished_both in HK as [H0 H1].
  pose proof (cnt_fin C T0 H0) as I0. pose proof (cnt_fin C T1 H1) as I1.
  simpl in I0, I1.
  assert (E : shared_counter (mem (run_to n sigma K)) = 2 * n).
  { rewrite (cnt_total C). unfold increments.
    rewrite H0, H1, I0, I1. unfold stored, b2z. lia. }
  split; [exact E|]. unfold main_verdict. rewrite E.
  replace (2 * n) with (n * 2) by lia. now rewrite Z.eqb_refl.
Qed.

Lemma fair_run_verified_witness :
  fair alternate
  /\ exists k,
       finished (run_to NUM_ITERATIONS alternate k) = true
       /\ shared_counter (mem (run_to NUM_ITERATIONS alternate k)) = 10
       /\ main_verdict NUM_ITERATIONS (run_to NUM_ITERATIONS alternate k)
          = Verified.
Proof.
  split; [exact alternate_fair|].
  apply (@fair_run_verified NUM_ITERATIONS alternate).
  - unfold NUM_ITERATIONS. lia.
  - unfold NUM_ITERATIONS, INT_MAX. lia.
  - exact alternate_fair.
Defined.

(** ** The uncontended entry *)

(** X10. Without contention the turn is not consulted: a thread that calls
    [dekker_lock] while the peer's flag is down, and takes three steps
    before the peer moves, makes exactly three accesses (raise its flag,
    read the peer's flag twice), is then at line 104 with its flag up, and
    has left [turn] and the peer's flag as they were, whatever [turn]
    holds. *)
Theorem uncontended_lock (n : Z) (t : tid) (s : state) :
  pc (thread t s) = L49 ->
  flag_load (mem s) (id_of (peer t)) = false ->
  let s' := run n [t; t; t] s in
  pc (thread t s') = L104
  /\ flag_load (mem s') (id_of t) = true
  /\ flag_load (mem s') (id_of (peer t)) = false
  /\ turn (mem s') = turn (mem s)
  /\ events_of t (trace n [t; t; t] s)
     = [EvStore (Flag (id_of t)) (VBool true) memory_order_seq_cst;
        EvLoad (Flag (1 - id_of t)) (VBool false) memory_order_seq_cst;
        EvLoad (Flag (1 - id_of t)) (VBool false) memory_order_seq_cst].
Proof.
  break_state s. destruct t; cbn; intros -> ->; cbn; auto 10.
Qed.

Lemma uncontended_lock_witness :
  let s := run NUM_ITERATIONS [T1; T0; T0; T0; T0; T0; T0;
                               T0; T0; T0; T0] init in
  pc (thread T1 s) = L49
  /\ flag_load (mem s) (id_of (peer T1)) = false
  /\ turn (mem s) = 1
  /\ pc (thread T1 (run NUM_ITERATIONS [T1; T1; T1] s)) = L104.
Proof.
  intros s. split; [reflexivity|]. split; [reflexivity|].
  split; [reflexivity|].
  apply (@uncontended_lock NUM_ITERATIONS T1 s); reflexivity.
Defined.

(** ** Line numbers of the trace output *)







(** ** The holder of the turn *)

Lemma before_entry_step n t s :
  turn (mem s) = id_of t ->
  before_entry (pc (thread t s)) = true ->
  in_lock (pc (thread t (step n t s))) = true ->
  before_entry (pc (thread t (step n t s))) = true
  /\ turn (mem (step n t s)) = id_of t
  /\ forall o, ~ In (EvStore (Flag (id_of t)) (VBool false) o)
                    (step_events n t s).
Proof.
  break_state s.
  destruct t; [destruct p0 | destruct p1]; unfold step, step_events; cbn;
    try discriminate; intros; subst; cbn in *; split_ifs; cbn in *;
    try discriminate; repeat split; auto;
    intros o [H|[]]; discriminate.
Qed.

(** X12. A thread that has the turn does not back off: from a point of
    [dekker_lock] other than the back-off itself, with [turn = id], for as
    long as the thread stays inside [dekker_lock] it never reaches lines
    60-64, never stores [false] to its flag, and [turn] stays its own. *)
Theorem turn_holder_never_backs_off (n : Z) (t : tid) (sched : list tid)
  (s : state) :
  turn (mem s) = id_of t ->
  before_entry (pc (thread t s)) = true ->
  stays n in_lock t sched s = true ->
  stays n before_entry t sched s = true
  /\ turn (mem (run n sched s)) = id_of t
  /\ forall o, ~ In (EvStore (Flag (id_of t)) (VBool false) o)
                    (events_of t (trace n sched s)).
Proof.
  revert s. induction sched as [|u rest IH]; intros s T B S.
  - simpl. rewrite B. auto.
  - simpl in S. apply andb_true_iff in S as [_ S].
    destruct (tid_cases t u) as [->| ->].
    + destruct (before_entry_step n t s T B (stays_head _ _ _ _ _ S))
        as (B' & T' & E).
      destruct (IH _ T' B' S) as (S' & T'' & E').
      rewrite events_own. simpl. rewrite B, S'. repeat split; auto.
      intros o H. apply in_app_or in H as [H|H]; [now apply (E o)|].
      now apply (E' o).
    + destruct (IH (step n (peer t) s)) as (S' & T' & E'); auto.
      * now apply peer_step_turn.
      * now rewrite thread_after_peer.
      * rewrite events_peer. simpl. rewrite B, S'. auto.
Qed.

Lemma turn_holder_never_backs_off_witness :
  let s := run NUM_ITERATIONS [T0; T0; T1; T1; T1] init in
  let sched := [T0; T1; T0; T0; T1; T1] in
  turn (mem s) = id_of T0
  /\ before_entry (pc (thread T0 s)) = true
  /\ stays NUM_ITERATIONS in_lock T0 sched s = true
  /\ stays NUM_ITERATIONS before_entry T0 sched s = true.
Proof.
  intros s sched.
  assert (H1 : turn (mem s) = id_of T0) by reflexivity.
  assert (H2 : before_entry (pc (thread T0 s)) = true) by reflexivity.
  assert (H3 : stays NUM_ITERATIONS in_lock T0 sched s = true)
    by reflexivity.
  split; [exact H1|]. split; [exact H2|]. split; [exact H3|].
  exact (proj1 (@turn_holder_never_backs_off NUM_ITERATIONS T0 sched s
                  H1 H2 H3)).
Defined.

(** ** Memory order *)

(** X13. Every load, store and read-modify-write a thread makes in any
    run, on the flags, [turn] and both counters, is made with
    [memory_order_seq_cst]: passed explicitly in [dekker_lock] and
    [dekker_unlock], and the default of [load()], [store()], [++] and [--]
    elsewhere (lines 60, 104, 110, 116, 119). *)
Theorem protocol_accesses_seq_cst (n : Z) (sched : list tid) (s : state)
  (t : tid) (e : event) :
  In (t, e) (trace n sched s) ->
  match e with
  | EvLoad _ _ o | EvStore _ _ o | EvRmw _ _ _ o => o = memory_order_seq_cst
  | EvCerr _ => True
  end.
Proof.
  intros H. pose proof (@accesses_seq_cst n sched s t e) as A.
  destruct e; simpl in A; auto.
Qed.

Lemma protocol_accesses_seq_cst_witness :
  In (T0, EvLoad Turn (VInt 0) memory_order_seq_cst)
     (trace NUM_ITERATIONS [T1; T1; T0; T0; T0; T0; T0] init)
  /\ memory_order_seq_cst = memory_order_seq_cst.
Proof.
  assert (H : In (T0, EvLoad Turn (VInt 0) memory_order_seq_cst)
                 (trace NUM_ITERATIONS [T1; T1; T0; T0; T0; T0; T0] init))
    by (simpl; auto 10).
  split; [exact H|].
  exact (@protocol_accesses_seq_cst NUM_ITERATIONS
           [T1; T1; T0; T0; T0; T0; T0] init T0 _ H).
Defined.
